(** * BtDeviceLinkDevice: the reconciliation engine of ble-devicelink

    A shallow embedding of [src/ble-devicelink/bt-devicelink-device.js].

    The device object is a record; every method is a function on that record.
    An [async] body is cut at its [await]s: each piece is a total function that
    runs to the next suspension point and returns the continuation it is
    waiting in.  What a piece does to the outside world (console output,
    remote-service calls, emitted events, transport writes, an exception that
    leaves the method) is returned as a list of events, oldest first. *)

From Stdlib Require Import List String Ascii ZArith Bool Arith Lia.
From Stdlib Require Import DecimalString.
Import ListNotations.

Open Scope string_scope.
Open Scope list_scope.

Set Warnings "-register-all".

(** ** JavaScript values that travel through the engine *)

(** The integers a JavaScript number holds exactly
    ([Number.isSafeInteger]). *)
Definition MAX_SAFE_INTEGER : Z := 9007199254740991.

Definition isSafeInteger (z : Z) : bool :=
  (- MAX_SAFE_INTEGER <=? z)%Z && (z <=? MAX_SAFE_INTEGER)%Z.

(** Characteristic values, reader results and inbound write payloads.  Numbers
    are the safe integers; that is all a BLE characteristic byte or counter
    needs, and they are the numbers [Number.prototype.toString] prints digit
    by digit. *)
Inductive jsval : Type :=
| JUndefined
| JNull
| JBool (b : bool)
| JNum (z : Z) (safe : isSafeInteger z = true)
| JStr (s : string)
| JArr (l : list jsval)
| JObj (fields : list (string * jsval)).

(** A JavaScript object used as a table: own keys in [Object.keys] order. *)
Definition table (A : Type) : Type := list (string * A).

(** The entry [t] itself lists under [k].  It is [t[k]] for a key of
    [Object.keys(t)] and for a key that starts with a slash; what [t[k]] reads
    for any key at all is [get] below. *)
Fixpoint lookup {A : Type} (k : string) (t : table A) : option A :=
  match t with
  | [] => None
  | (k', a) :: t' => if String.eqb k k' then Some a else lookup k t'
  end.

(** [Object.keys(t)] *)
Definition keys {A : Type} (t : table A) : list string := map fst t.

(** [Object.keys(t).map(r => t[r])] *)
Definition values {A : Type} (t : table A) : list A := map snd t.

(** [Array.prototype.indexOf], with [None] for [-1]. *)
Fixpoint indexOf (a : list string) (v : string) : option nat :=
  match a with
  | [] => None
  | x :: a' =>
      if String.eqb x v then Some 0
      else match indexOf a' v with
           | Some i => Some (S i)
           | None => None
           end
  end.

(** [a.indexOf(v) > -1] *)
Definition has (a : list string) (v : string) : bool :=
  match indexOf a v with Some _ => true | None => false end.

(** [l.filter((v, i, a) => p(v, i))], the index counted from [i]. *)
Fixpoint filter_from {A : Type} (p : A -> nat -> bool) (i : nat) (l : list A)
  : list A :=
  match l with
  | [] => []
  | v :: l' =>
      if p v i then v :: filter_from p (S i) l' else filter_from p (S i) l'
  end.

(** [a.filter((v, i, a) => a.indexOf(v) === i)] *)
Definition dedupe (a : list string) : list string :=
  filter_from
    (fun v i => match indexOf a v with
                | Some j => Nat.eqb j i
                | None => false
                end)
    0 a.

(** The same thing said without indices: keep an element when it is met for
    the first time. *)
Fixpoint first_seen (seen : list string) (a : list string) : list string :=
  match a with
  | [] => []
  | v :: a' =>
      if has seen v then first_seen seen a'
      else v :: first_seen (seen ++ [v]) a'
  end.

Fixpoint join (sep : string) (l : list string) : string :=
  match l with
  | [] => EmptyString
  | [s] => s
  | s :: l' => s ++ sep ++ join sep l'
  end.

(** The string an element of an array is joined as: empty for [undefined]
    and [null], else what the value converts to.  [None] is the [TypeError]
    of an object whose own [toString] property hides the inherited method:
    the values here hold data only, so that property is no function. *)
Fixpoint toStringElem (v : jsval) : option string :=
  match v with
  | JUndefined | JNull => Some EmptyString
  | JBool true => Some "true"
  | JBool false => Some "false"
  | JNum z _ => Some (NilZero.string_of_int (Z.to_int z))
  | JStr s => Some s
  | JArr l =>
      option_map (join ",")
        ((fix each (l : list jsval) : option (list string) :=
            match l with
            | [] => Some []
            | x :: l' =>
                match toStringElem x, each l' with
                | Some s, Some r => Some (s :: r)
                | _, _ => None
                end
            end) l)
  | JObj fields =>
      if has (keys fields) "toString" then None else Some "[object Object]"
  end.

(** [x.toString()] for the values above; [None] is the [TypeError] a missing
    receiver, or a [toString] that is no function, raises. *)
Definition toString (v : jsval) : option string :=
  match v with
  | JUndefined | JNull => None
  | _ => toStringElem v
  end.

(** [`${x}`], the conversion a template literal applies. *)
Definition interpolate (v : jsval) : option string :=
  match v with
  | JUndefined => Some "undefined"
  | JNull => Some "null"
  | _ => toStringElem v
  end.

(** [v.name]: [None] is the [TypeError] of reading a property of [undefined]
    or [null]; a property nothing defines reads as [undefined]. *)
Definition getProp (v : jsval) (name : string) : option jsval :=
  match v with
  | JUndefined | JNull => None
  | JObj fields =>
      match lookup name fields with
      | Some x => Some x
      | None => Some JUndefined
      end
  | _ => Some JUndefined
  end.

(** ** Resource descriptors *)

(** The object literal [generateLwm2mModel] returns for a key.  [observable]
    is [Some true] or absent there; the objects the remote service holds may
    carry any boolean. *)
Record descriptor : Type := mkDescriptor {
  path : string;
  valueType : string;
  operation : list string;
  value : string;
  observable : option bool
}.

Definition descriptor_model : Type := list descriptor.

(** [cloudDevice.resources]: path to resource object.  A resource object is
    read through the fields of a descriptor; its [setValue] method is the
    remote call [CSetValue] below. *)
Definition resources : Type := table descriptor.

(** ** JSON.stringify, as far as [getSchema] needs it *)

Definition dquote : ascii := ascii_of_nat 34.
Definition backslash : ascii := ascii_of_nat 92.

Definition hexdigit (n : nat) : ascii :=
  ascii_of_nat (if Nat.ltb n 10 then 48 + n else 87 + n).

(** QuoteJSONString on one code unit. *)
Definition escape_char (c : ascii) : string :=
  let n := nat_of_ascii c in
  if Nat.eqb n 34 then String backslash (String dquote EmptyString)
  else if Nat.eqb n 92 then String backslash (String backslash EmptyString)
  else if Nat.eqb n 8 then String backslash "b"
  else if Nat.eqb n 9 then String backslash "t"
  else if Nat.eqb n 10 then String backslash "n"
  else if Nat.eqb n 12 then String backslash "f"
  else if Nat.eqb n 13 then String backslash "r"
  else if Nat.ltb n 32 then
    String backslash
      (String "u" (String "0" (String "0"
        (String (hexdigit (n / 16)) (String (hexdigit (n mod 16)) EmptyString)))))
  else String c EmptyString.

Fixpoint escape (s : string) : string :=
  match s with
  | EmptyString => EmptyString
  | String c s' => escape_char c ++ escape s'
  end.

Definition json_string (s : string) : string :=
  String dquote (escape s ++ String dquote EmptyString).

Definition json_array (items : list string) : string :=
  "[" ++ join "," items ++ "]".

(** One property, [name] followed by a colon and the serialised value. *)
Definition json_prop (name : string) (v : string) : string :=
  json_string name ++ ":" ++ v.

(** [rule = Object.assign({}, rule); delete rule.value]: the properties
    left, in the order the literal lists them. *)
Record bare_rule : Type := mkBare {
  bare_path : string;
  bare_valueType : string;
  bare_operation : list string;
  bare_observable : option bool
}.

Definition delete_value (rule : descriptor) : bare_rule :=
  mkBare (path rule) (valueType rule) (operation rule) (observable rule).

(** What follows the operation array: the observable property, which is not
    printed when its value is [undefined], and the closing brace. *)
Definition json_observable (o : option bool) : string :=
  match o with
  | Some true => "," ++ json_prop "observable" "true" ++ "}"
  | Some false => "," ++ json_prop "observable" "false" ++ "}"
  | None => "}"
  end.

Definition json_rule (rule : bare_rule) : string :=
  "{" ++ json_prop "path" (json_string (bare_path rule))
      ++ "," ++ json_prop "valueType" (json_string (bare_valueType rule))
      ++ "," ++ json_prop "operation"
                  (json_array (map json_string (bare_operation rule)))
      ++ json_observable (bare_observable rule).

(** [getSchema], the local function of [bleModelUpdated]. *)
Definition getSchema (model : descriptor_model) : string :=
  json_array (map json_rule (map delete_value model)).

(** Reading one escaped code unit back from the front of a string; [None]
    at the closing quote and at anything [escape_char] does not print. *)
Definition unhex (c : ascii) : option nat :=
  let n := nat_of_ascii c in
  if Nat.leb 48 n && Nat.leb n 57 then Some (n - 48)
  else if Nat.leb 97 n && Nat.leb n 102 then Some (n - 87)
  else None.

Definition unescape_char (s : string) : option (ascii * string) :=
  match s with
  | EmptyString => None
  | String c s1 =>
      if Nat.eqb (nat_of_ascii c) 34 then None
      else if Nat.eqb (nat_of_ascii c) 92 then
        match s1 with
        | EmptyString => None
        | String e s2 =>
            let n := nat_of_ascii e in
            if Nat.eqb n 34 then Some (dquote, s2)
            else if Nat.eqb n 92 then Some (backslash, s2)
            else if Nat.eqb n 98 then Some (ascii_of_nat 8, s2)
            else if Nat.eqb n 116 then Some (ascii_of_nat 9, s2)
            else if Nat.eqb n 110 then Some (ascii_of_nat 10, s2)
            else if Nat.eqb n 102 then Some (ascii_of_nat 12, s2)
            else if Nat.eqb n 114 then Some (ascii_of_nat 13, s2)
            else if Nat.eqb n 117 then
              match s2 with
              | String _ (String _ (String h1 (String h2 s3))) =>
                  match unhex h1, unhex h2 with
                  | Some a, Some b => Some (ascii_of_nat (16 * a + b), s3)
                  | _, _ => None
                  end
              | _ => None
              end
            else None
        end
      else Some (c, s1)
  end.

(** ** Snapshots and the cloud definition *)

(** One characteristic of the BLE model: its current value and the transport
    object that writes to it ([None] when the snapshot carries none). *)
Record characteristic : Type := mkCharacteristic {
  cvalue : jsval;
  char : option nat
}.

(** service-identifier to characteristic-identifier to characteristic *)
Definition snapshot : Type := table (table characteristic).

(** What [createSimplifiedModel] hands to the readers. *)
Definition simplified : Type := table (table jsval).

(** A read rule: [None] is a throw. *)
Definition reader : Type := simplified -> option jsval.

(** The second argument of the [write] callback of [onPut]. *)
Inductive wdata : Type :=
| WScalar (z : Z)
| WArray (l : list Z).

(** A write rule [(value, write) => ...], given by the calls to [write] it
    makes, in order. *)
Definition writer : Type := jsval -> list (string * wdata).

(** [cloudDefinition]; either table may be missing from the object. *)
Record cloud_definition : Type := mkDefinition {
  read : option (table reader);
  write : option (table writer)
}.

Definition createSimplifiedModel (m : snapshot) : simplified :=
  map (fun sc => (fst sc, map (fun cx => (fst cx, cvalue (snd cx))) (snd sc)))
      m.

Definition is_empty (s : string) : bool :=
  match s with EmptyString => true | _ => false end.

(** The [try] block of the [allKeys.map] callback: the string the reader
    of [k] gives, and the empty string [v] starts with when the block
    throws. *)
Definition read_value (rd : table reader) (readKeys : list string)
    (m : simplified) (k : string) : string :=
  match (if has readKeys k
         then match lookup k rd with
              | Some f => f m
              | None => None
              end
         else Some (JStr EmptyString)) with
  | Some x => match toString x with
              | Some s => s
              | None => EmptyString
              end
  | None => EmptyString
  end.

(** The body of the [allKeys.map] callback of [generateLwm2mModel]. *)
Definition rule_for (rd : table reader) (readKeys writeKeys : list string)
    (res : resources) (m : simplified) (k : string) : descriptor :=
  let op := (if has readKeys k then ["GET"] else [])
            ++ (if has writeKeys k then ["PUT"] else []) in
  let v := read_value rd readKeys m k in
  let v := if is_empty v
           then match lookup ("/" ++ k) res with
                | Some r => value r
                | None => v
                end
           else v in
  {| path := "/" ++ k;
     valueType := "dynamic";
     operation := op;
     value := v;
     observable := if has readKeys k then Some true else None |}.

(** [generateLwm2mModel]; [None] is the [TypeError] of [Object.keys] on a
    missing table. *)
Definition generateLwm2mModel (definition : cloud_definition)
    (res : resources) (m : snapshot) : option descriptor_model :=
  match read definition, write definition with
  | Some rd, Some wr =>
      let readKeys := keys rd in
      let writeKeys := keys wr in
      let allKeys := readKeys ++ writeKeys in
      let m := createSimplifiedModel m in
      let allKeys := dedupe allKeys in
      Some (map (rule_for rd readKeys writeKeys res m) allKeys)
  | _, _ => None
  end.

(** ** The device object *)

Record device : Type := mkDevice {
  address : string;
  state : string;
  stateError : jsval;
  model : descriptor_model;
  cloudDefinition : cloud_definition;
  modelUpdateInProgress : bool;
  bleModel : snapshot;
  registered : bool
}.

Definition set_state (st : string) (err : jsval) (d : device) : device :=
  mkDevice (address d) st err (model d) (cloudDefinition d)
           (modelUpdateInProgress d) (bleModel d) (registered d).

Definition set_model (m : descriptor_model) (d : device) : device :=
  mkDevice (address d) (state d) (stateError d) m (cloudDefinition d)
           (modelUpdateInProgress d) (bleModel d) (registered d).

Definition set_modelUpdateInProgress (b : bool) (d : device) : device :=
  mkDevice (address d) (state d) (stateError d) (model d) (cloudDefinition d)
           b (bleModel d) (registered d).

Definition set_bleModel (m : snapshot) (d : device) : device :=
  mkDevice (address d) (state d) (stateError d) (model d) (cloudDefinition d)
           (modelUpdateInProgress d) m (registered d).

Definition set_registered (b : bool) (d : device) : device :=
  mkDevice (address d) (state d) (stateError d) (model d) (cloudDefinition d)
           (modelUpdateInProgress d) (bleModel d) b.

(** ** What the device does to the outside *)

(** The asynchronous methods of [cloudDevice] and of its resources. *)
Inductive call : Type :=
| CGetRegistrationStatus
| CRegister
| CDeregister
| CSetResourceModel (m : descriptor_model)
| CSetValue (p : string) (v : string).

(** How an awaited promise settles. *)
Inductive reply : Type :=
| Resolved (v : jsval)
| Rejected.

(** One constructor per [console.log] of the file. *)
Inductive logmsg : Type :=
| LogRegistrationStatus (status : jsval)
| LogDeregistering
| LogDeregisteringOK
| LogStatusFailed
| LogRegistering
| LogRegistered
| LogRegistrationFailed
| LogDeregistered
| LogDeregistrationFailed
| LogAlreadyUpdating
| LogSchemaChange (curr : descriptor_model)
| LogSetResourceModel
| LogSetResourceModelOK
| LogDeregister
| LogDeregisterOK
| LogRegister
| LogRegisterOK
| LogUpdateValue (p : string) (v : string)
| LogUpdateValueOK (p : string) (v : string)
| LogModelUpdateFailed
| LogNoWriteRule (p : string)
| LogWriteFromCloud (p : string) (v : jsval)
| LogWritingToChar (p : string) (data : list Z)
| LogNoCharacteristic.

Inductive event : Type :=
| EvLog (m : logmsg)
| EvEmit (name : string)
| EvCall (c : call)
| EvSettled (c : call) (r : reply)
| EvWriter (key : string) (v : jsval)
| EvCharWrite (handle : nat) (bytes : list Z)
| EvInherited (name : string) (v : jsval)
| EvDefine (setter : bool) (key : string)
| EvThrow.

(** Where a suspended body waits.  The first four belong to the constructor
    and the [statechange] listener, the last four to [bleModelUpdated]; the
    arguments are the locals the rest of the body still reads. *)
Inductive cont : Type :=
| KStatus
| KInitDeregister
| KConnect
| KDisconnect
| KSetResourceModel (curr : descriptor_model)
| KDeregister (curr : descriptor_model)
| KRegister (curr : descriptor_model)
| KSetValue (curr old : descriptor_model) (rule : descriptor)
            (rest : descriptor_model).

(** The call a continuation is waiting for. *)
Definition pending (k : cont) : call :=
  match k with
  | KStatus => CGetRegistrationStatus
  | KInitDeregister => CDeregister
  | KConnect => CRegister
  | KDisconnect => CDeregister
  | KSetResourceModel curr => CSetResourceModel curr
  | KDeregister _ => CDeregister
  | KRegister _ => CRegister
  | KSetValue _ _ rule _ => CSetValue (path rule) (value rule)
  end.

(** The result of one piece: the device, what happened, and where the body
    is suspended if it is. *)
Definition piece : Type := device * list event * option cont.

(** ** The constructor and the statechange listener *)

(** [new BtDeviceLinkDevice(address, cloudDefinition, cloudDevice)]: the
    fields, and the registration check up to its first [await]. *)
Definition BtDeviceLinkDevice (addr : string) (definition : cloud_definition)
  : piece :=
  (mkDevice addr "disconnected" JNull [] definition false [] false,
   [EvCall CGetRegistrationStatus],
   Some KStatus).

(** The listener the constructor installs with [this.on('statechange', ...)],
    up to the call whose promise it chains on. *)
Definition statechange (ev : string) (d : device) : piece :=
  if String.eqb ev "connected" then
    if registered d then (d, [], None)
    else (d, [EvLog LogRegistering; EvCall CRegister], Some KConnect)
  else if String.eqb ev "disconnected" then
    if negb (registered d) then (d, [], None)
    else (d, [EvLog LogDeregistering; EvCall CDeregister], Some KDisconnect)
  else (d, [], None).

(** [updateState(state, error)] *)
Definition updateState (st : string) (error : jsval) (d : device) : piece :=
  let d := set_state st error d in
  let '(d', evs, k) := statechange st d in
  (d', EvEmit "statechange" :: evs, k).

(** ** bleModelUpdated *)

(** [oldValue] of the value loop; [None] is [undefined]. *)
Definition old_value (old : descriptor_model) (res : resources)
    (rule : descriptor) : option string :=
  match find (fun r => String.eqb (path r) (path rule)) old with
  | None =>
      match lookup (path rule) res with
      | Some r => Some (value r)
      | None => None
      end
  | Some oldRule => Some (value oldRule)
  end.

(** [rule.value !== oldValue] *)
Definition differs (v : string) (o : option string) : bool :=
  match o with
  | Some w => negb (String.eqb v w)
  | None => true
  end.

(** The [catch] block followed by the [finally] block. *)
Definition caught (curr : descriptor_model) (d : device) : piece :=
  (set_model curr (set_modelUpdateInProgress false d),
   [EvLog LogModelUpdateFailed],
   None).

(** [for (let rule of curr) { ... }] from the rule [rules] starts with, then
    the end of the [try] block and the [finally] block.  [old] was read when
    the method was entered; [this.registered] and [cloudDevice.resources]
    are read as the loop meets them. *)
Fixpoint value_loop (curr old rules : descriptor_model) (res : resources)
    (d : device) : piece :=
  match rules with
  | [] => (set_model curr (set_modelUpdateInProgress false d), [], None)
  | rule :: rest =>
      if differs (value rule) (old_value old res rule) && registered d then
        match lookup (path rule) res with
        | Some _ =>
            (d,
             [EvLog (LogUpdateValue (path rule) (value rule));
              EvCall (CSetValue (path rule) (value rule))],
             Some (KSetValue curr old rule rest))
        | None =>
            let '(d', evs, k) := caught curr d in
            (d', EvLog (LogUpdateValue (path rule) (value rule)) :: evs, k)
        end
      else value_loop curr old rest res d
  end.

(** [bleModelUpdated(model)] up to its first [await]. *)
Definition bleModelUpdated (m : snapshot) (res : resources) (d : device)
  : piece :=
  match generateLwm2mModel (cloudDefinition d) res m with
  | None => (d, [EvEmit "ble-model-updated"; EvThrow], None)
  | Some curr =>
      let old := model d in
      let d := set_bleModel m d in
      if modelUpdateInProgress d then
        (set_model curr d,
         [EvEmit "ble-model-updated"; EvLog LogAlreadyUpdating],
         None)
      else
        let d := set_modelUpdateInProgress true d in
        let currSchema := getSchema curr in
        let oldSchema := getSchema (values res) in
        if negb (String.eqb currSchema oldSchema) && registered d then
          (d,
           [EvEmit "ble-model-updated";
            EvLog (LogSchemaChange curr);
            EvLog LogSetResourceModel;
            EvCall (CSetResourceModel curr)],
           Some (KSetResourceModel curr))
        else
          let '(d', evs, k) := value_loop curr old curr res d in
          (d', EvEmit "ble-model-updated" :: evs, k)
  end.

(** ** Resuming a suspended body *)

(** The body waiting in [k] continues with the settled promise [r], and runs
    to its next [await] or to its end.  For the two promise chains of the
    listener the handlers of one chain run as one piece. *)
Definition resume (k : cont) (r : reply) (res : resources) (d : device)
  : piece :=
  match k, r with
  | KStatus, Resolved status =>
      match status with
      | JBool true =>
          (d,
           [EvLog (LogRegistrationStatus status); EvLog LogDeregistering;
            EvCall CDeregister],
           Some KInitDeregister)
      | _ => (d, [EvLog (LogRegistrationStatus status)], None)
      end
  | KStatus, Rejected => (d, [EvLog LogStatusFailed], None)
  | KInitDeregister, Resolved _ => (d, [EvLog LogDeregisteringOK], None)
  | KInitDeregister, Rejected => (d, [EvLog LogStatusFailed], None)
  | KConnect, Resolved _ => (set_registered true d, [EvLog LogRegistered], None)
  | KConnect, Rejected => (d, [EvLog LogRegistrationFailed], None)
  | KDisconnect, Resolved _ =>
      (set_registered false d, [EvLog LogDeregistered], None)
  | KDisconnect, Rejected =>
      (set_registered false d, [EvLog LogDeregistrationFailed], None)
  | KSetResourceModel curr, Resolved _ =>
      (d,
       [EvLog LogSetResourceModelOK; EvLog LogDeregister; EvCall CDeregister],
       Some (KDeregister curr))
  | KDeregister curr, Resolved _ =>
      (d,
       [EvLog LogDeregisterOK; EvLog LogRegister; EvCall CRegister],
       Some (KRegister curr))
  | KRegister curr, Resolved _ =>
      (set_model curr (set_modelUpdateInProgress false d),
       [EvLog LogRegisterOK],
       None)
  | KSetValue curr old rule rest, Resolved _ =>
      let '(d', evs, k') := value_loop curr old rest res d in
      (d', EvLog (LogUpdateValueOK (path rule) (value rule)) :: evs, k')
  | KSetResourceModel curr, Rejected
  | KDeregister curr, Rejected
  | KRegister curr, Rejected
  | KSetValue curr _ _ _, Rejected => caught curr d
  end.

(** The continuations of [bleModelUpdated]. *)
Definition reconciling (k : cont) : bool :=
  match k with
  | KSetResourceModel _ | KDeregister _ | KRegister _ | KSetValue _ _ _ _ =>
      true
  | _ => false
  end.

(** An upper bound on the calls a suspended body can still await. *)
Definition cont_size (k : cont) : nat :=
  match k with
  | KStatus => 2
  | KInitDeregister => 1
  | KConnect => 1
  | KDisconnect => 1
  | KSetResourceModel _ => 3
  | KDeregister _ => 2
  | KRegister _ => 1
  | KSetValue _ _ _ rest => S (List.length rest)
  end.

(** ** onPut *)

(** [path.substr(1)] *)
Definition substr1 (p : string) : string :=
  match p with
  | EmptyString => EmptyString
  | String _ p' => p'
  end.

(** [path.split('/')] *)
Fixpoint split_slash (p : string) : list string :=
  match p with
  | EmptyString => [EmptyString]
  | String c p' =>
      if Ascii.eqb c "/" then EmptyString :: split_slash p'
      else match split_slash p' with
           | s :: l => String c s :: l
           | [] => [String c EmptyString]
           end
  end.

(** [if (!(aData instanceof Array)) aData = [ aData ]] *)
Definition to_array (a : wdata) : list Z :=
  match a with
  | WScalar z => [z]
  | WArray l => l
  end.

(** [new Buffer(aData)]: one octet per element. *)
Definition Buffer (l : list Z) : list Z := map (fun z => Z.modulo z 256) l.

(** *** Property reads on plain objects *)

(** The write table and the snapshot are plain objects, and [o[name]] looks
    beyond the keys the object lists: a name it does not hold is found on
    [Object.prototype] when that object has it. *)
Definition object_prototype_names : list string :=
  ["constructor"; "__defineGetter__"; "__defineSetter__"; "hasOwnProperty";
   "__lookupGetter__"; "__lookupSetter__"; "isPrototypeOf";
   "propertyIsEnumerable"; "toString"; "valueOf"; "__proto__";
   "toLocaleString"].

Inductive property (A : Type) : Type :=
| Own (a : A)
| Inherited
| Absent.

Arguments Own {A} a.
Arguments Inherited {A}.
Arguments Absent {A}.

(** [t[name]]: the entry of [t], else what [Object.prototype] holds under
    that name (a method, or the prototype itself for [__proto__]; all of them
    truthy), else [undefined]. *)
Definition get {A : Type} (name : string) (t : table A) : property A :=
  match lookup name t with
  | Some a => Own a
  | None => if has object_prototype_names name then Inherited else Absent
  end.

(** What the built-in objects themselves hold is a matter of the runtime:
    [Object] has gained members with every edition of the language, and the
    poisoned [caller] and [arguments] of functions throw in one engine and
    read as [null] in another.  For a [service] the snapshot inherits,
    [builtin_member service chr] says that reading [snapshot[service][chr]]
    gives a truthy value or throws. *)
Record engine : Type := mkEngine {
  builtin_member : string -> string -> bool
}.

(** The built-ins as the 2017 edition of the language standard lists them,
    the first edition with the [async] functions of this file. *)
Definition function_prototype_names : list string :=
  ["apply"; "bind"; "call"; "constructor"; "toString"; "caller"; "arguments"].

Definition object_static_names : list string :=
  ["prototype"; "assign"; "create"; "defineProperties"; "defineProperty";
   "entries"; "freeze"; "getOwnPropertyDescriptor";
   "getOwnPropertyDescriptors"; "getOwnPropertyNames";
   "getOwnPropertySymbols"; "getPrototypeOf"; "is"; "isExtensible";
   "isFrozen"; "isSealed"; "keys"; "preventExtensions"; "seal";
   "setPrototypeOf"; "values"].

(** The methods of [Object.prototype] that expect no argument; their
    [length] is [0]. *)
Definition nullary_names : list string :=
  ["toString"; "toLocaleString"; "valueOf"].

Definition es2017_member (service chr : string) : bool :=
  if String.eqb service "__proto__" then
    has object_prototype_names chr && negb (String.eqb chr "__proto__")
  else if String.eqb chr "name" then true
  else if String.eqb chr "length" then negb (has nullary_names service)
  else has function_prototype_names chr
       || has object_prototype_names chr
       || (String.eqb service "constructor" && has object_static_names chr).

Definition es2017 : engine := mkEngine es2017_member.

(** *** The local function [write] *)

Inductive found : Type :=
| Characteristic (c : characteristic)
| NoCharacteristic
| NotFound.

(** [self.bleModel[service] && self.bleModel[service][char]] for the path a
    write rule hands to [write]: a characteristic of the snapshot; or a value
    that passes the test and is none ([NoCharacteristic], also when the read
    itself throws); or a falsy value. *)
Definition find_characteristic (js : engine) (bm : snapshot) (p : string)
  : found :=
  let s := split_slash p in
  let service := nth 0 s "undefined" in
  let chr := nth 1 s "undefined" in
  match get service bm with
  | Own chars =>
      match get chr chars with
      | Own c => Characteristic c
      | Inherited => NoCharacteristic
      | Absent => NotFound
      end
  | Inherited =>
      if builtin_member js service chr then NoCharacteristic else NotFound
  | Absent => NotFound
  end.

(** The calls a write rule makes to the local function [write] of [onPut].
    An exception of the transport leaves the rule and [onPut]; so does the
    [TypeError] of [.char.write] on a value that has no transport object. *)
Fixpoint do_writes (js : engine) (bm : snapshot) (reqs : list (string * wdata))
  : list event :=
  match reqs with
  | [] => []
  | (p, aData) :: rest =>
      let aData := to_array aData in
      EvLog (LogWritingToChar p aData) ::
      match find_characteristic js bm p with
      | Characteristic c =>
          match char c with
          | Some handle =>
              EvCharWrite handle (Buffer aData) :: do_writes js bm rest
          | None => [EvThrow]
          end
      | NoCharacteristic => [EvThrow]
      | NotFound => EvLog LogNoCharacteristic :: do_writes js bm rest
      end
  end.

(** [write[name](value, write)] for a name the write table inherits; [key]
    is the property key the value converts to.  What [__proto__] reads as is
    no function.  [toLocaleString] calls [this.toString()], which is the rule
    the table holds under that name when it has one: the rule then runs
    without arguments, and its first request calls [undefined].
    [__defineGetter__] and [__defineSetter__] hang the local function [write]
    on the table as an accessor named [key]; a table with accessors is beyond
    [cloud_definition], and the trace ends with the record of it.  The other
    methods only read. *)
Definition call_inherited (wr : table writer) (name : string) (v : jsval)
  (key : string) : list event :=
  if String.eqb name "__proto__" then [EvThrow]
  else
    EvInherited name v ::
    if String.eqb name "toLocaleString" then
      match lookup "toString" wr with
      | Some w =>
          EvWriter "toString" JUndefined ::
          match w JUndefined with
          | [] => []
          | _ :: _ => [EvThrow]
          end
      | None => []
      end
    else if String.eqb name "__defineGetter__" then [EvDefine false key]
    else if String.eqb name "__defineSetter__" then [EvDefine true key]
    else [].

(** [onPut(path, value)], the listener of the remote [put] notification.
    The guard reads [write[path.substr(1)]] like any property; the template
    of the next log line converts the value to a string, which can throw. *)
Definition onPut (js : engine) (p : string) (v : jsval) (d : device)
  : list event :=
  match write (cloudDefinition d) with
  | None => [EvLog (LogNoWriteRule p)]
  | Some wr =>
      match get (substr1 p) wr with
      | Absent => [EvLog (LogNoWriteRule p)]
      | Own w =>
          match interpolate v with
          | None => [EvThrow]
          | Some _ =>
              EvLog (LogWriteFromCloud p v) :: EvWriter (substr1 p) v ::
              do_writes js (bleModel d) (w v)
          end
      | Inherited =>
          match interpolate v with
          | None => [EvThrow]
          | Some key =>
              EvLog (LogWriteFromCloud p v) ::
              call_inherited wr (substr1 p) v key
          end
      end
  end.

(** ** Running against a remote service *)

(** The remote service (the object of mbed-client-service) lies outside the
    repository.  It is taken as a state [R], the resources it exposes in
    that state, and how it answers a call. *)
Section Remote.

Variable R : Type.
Variable resources_of : R -> resources.
Variable perform : call -> R -> reply * R.

(** A suspended body alone with the remote service: every call it awaits
    is answered, and it resumes, until it ends or [n] calls were answered.
    The answer is recorded in the trace. *)
Fixpoint run_fuel (n : nat) (k : cont) (rm : R) (d : device)
  : piece * R :=
  match n with
  | 0 => ((d, [], Some k), rm)
  | S n' =>
      let '(r, rm1) := perform (pending k) rm in
      let '(d1, evs, next) := resume k r (resources_of rm1) d in
      match next with
      | None => ((d1, EvSettled (pending k) r :: evs, None), rm1)
      | Some k' =>
          let '((d2, evs', more), rm2) := run_fuel n' k' rm1 d1 in
          ((d2, EvSettled (pending k) r :: evs ++ evs', more), rm2)
      end
  end.

Definition run (k : cont) (rm : R) (d : device) : piece * R :=
  run_fuel (cont_size k) k rm d.

(** A piece followed by the rest of its body. *)
Definition settle (p : piece) (rm : R) : piece * R :=
  match p with
  | (d, evs, None) => ((d, evs, None), rm)
  | (d, evs, Some k) =>
      let '((d', evs', more), rm') := run k rm d in
      ((d', evs ++ evs', more), rm')
  end.

(** One snapshot, reconciled with nothing else happening meanwhile. *)
Definition reconcile (m : snapshot) (rm : R) (d : device) : piece * R :=
  settle (bleModelUpdated m (resources_of rm) d) rm.

End Remote.

Arguments run_fuel {R} resources_of perform n k rm d.
Arguments run {R} resources_of perform k rm d.
Arguments settle {R} resources_of perform p rm.
Arguments reconcile {R} resources_of perform m rm d.

(** The remote calls of a trace, in order. *)
Fixpoint calls_of (tr : list event) : list call :=
  match tr with
  | [] => []
  | EvCall c :: tr' => c :: calls_of tr'
  | _ :: tr' => calls_of tr'
  end.

(** The console output of a trace. *)
Fixpoint logs_of (tr : list event) : list logmsg :=
  match tr with
  | [] => []
  | EvLog m :: tr' => m :: logs_of tr'
  | _ :: tr' => logs_of tr'
  end.

(** ** Concrete data for the examples *)

(** [snap[service][chr]] in a read rule; [None] is the [TypeError] of a
    missing service. *)
Definition snap_get (snap : simplified) (service chr : string)
  : option jsval :=
  match lookup service snap with
  | None => None
  | Some chars =>
      Some (match lookup chr chars with
            | Some v => v
            | None => JUndefined
            end)
  end.

(** The read rule [snap => snap.svc.c1.value]. *)
Definition reader_c1_value : reader :=
  fun snap =>
    match snap_get snap "svc" "c1" with
    | Some v => getProp v "value"
    | None => None
    end.

(** The read rule [snap => snap.svc.c1]. *)
Definition reader_c1 : reader := fun snap => snap_get snap "svc" "c1".

(** The snapshot [{svc: {c1: {value: 21}}}]. *)
Definition snapshot_21 : snapshot :=
  [("svc", [("c1", mkCharacteristic (JNum 21 eq_refl) None)])].

(** The same with another reading. *)
Definition snapshot_22 : snapshot :=
  [("svc", [("c1", mkCharacteristic (JNum 22 eq_refl) None)])].

(** The descriptor [{path: /temp, operation: [GET], value: 21,
    observable: true}] as [generateLwm2mModel] shapes it. *)
Definition temp_descriptor (v : string) : descriptor :=
  mkDescriptor "/temp" "dynamic" ["GET"] v (Some true).

(** A remote service that exposes the model it was sent last and the values
    it was set, and rejects the calls its script says: one entry per call, in
    order, [false] for a rejection; past the end of the script every call
    resolves. *)
Record mirror : Type := mkMirror {
  exposed : resources;
  script : list bool
}.

(** What [setValue] does to the exposed resource. *)
Definition set_value (p : string) (v : string) (res : resources) : resources :=
  map (fun kr =>
         if String.eqb p (fst kr)
         then (fst kr,
               mkDescriptor (path (snd kr)) (valueType (snd kr))
                            (operation (snd kr)) v (observable (snd kr)))
         else kr)
      res.

(** What [setResourceModel] makes the remote expose. *)
Definition expose (m : descriptor_model) : resources :=
  map (fun r => (path r, r)) m.

Definition mirror_perform (c : call) (rm : mirror) : reply * mirror :=
  match script rm with
  | false :: s => (Rejected, mkMirror (exposed rm) s)
  | s =>
      (Resolved (match c with
                 | CGetRegistrationStatus => JBool false
                 | _ => JUndefined
                 end),
       mkMirror (match c with
                 | CSetResourceModel m => expose m
                 | CSetValue p v => set_value p v (exposed rm)
                 | _ => exposed rm
                 end)
                (tl s))
  end.

(** A remote service that resolves every call and exposes nothing. *)
Definition deaf_perform (c : call) (rm : unit) : reply * unit :=
  (Resolved JUndefined, rm).

Definition deaf_resources (rm : unit) : resources := [].

(** A device as the constructor leaves it, then connected and registered. *)
Definition registered_device (definition : cloud_definition) : device :=
  mkDevice "aa:bb" "connected" JUndefined [] definition false [] true.

Definition temp_definition : cloud_definition :=
  mkDefinition (Some [("temp", reader_c1)]) (Some []).

(** The mapping of the scenario as it is written, [{read: {temp: snap =>
    snap.svc.c1.value}}], and the same with an empty write table. *)
Definition scenario_definition : cloud_definition :=
  mkDefinition (Some [("temp", reader_c1_value)]) None.

Definition scenario_definition_rw : cloud_definition :=
  mkDefinition (Some [("temp", reader_c1_value)]) (Some []).

(** Two descriptors that differ in their value at most. *)
Definition same_but_value (a b : descriptor) : Prop :=
  path a = path b /\ valueType a = valueType b /\
  operation a = operation b /\ observable a = observable b.

(** What a descriptor falls back to: the value the remote service holds for
    the path, or the empty string. *)
Definition remote_value (res : resources) (p : string) : string :=
  match lookup p res with
  | Some r => value r
  | None => EmptyString
  end.

(** ** Reading traces *)

(** The [setValue] call of a rule. *)
Definition setValue_call (rule : descriptor) : call :=
  CSetValue (path rule) (value rule).

(** [l1] is [l2] with some elements left out, the order kept. *)
Inductive subseq {A : Type} : list A -> list A -> Prop :=
| subseq_nil : subseq [] []
| subseq_skip (x : A) (l1 l2 : list A) : subseq l1 l2 -> subseq l1 (x :: l2)
| subseq_take (x : A) (l1 l2 : list A) :
    subseq l1 l2 -> subseq (x :: l1) (x :: l2).

(** After a rejected call the trace holds the line of the [catch] block and
    nothing more. *)
Fixpoint aborts_on_rejection (tr : list event) : Prop :=
  match tr with
  | [] => True
  | EvSettled _ Rejected :: tr' => tr' = [EvLog LogModelUpdateFailed]
  | _ :: tr' => aborts_on_rejection tr'
  end.

(** Every call of the trace has settled before anything else happens. *)
Fixpoint awaited (tr : list event) : Prop :=
  match tr with
  | [] => True
  | EvCall c :: tr' =>
      match tr' with
      | EvSettled c' _ :: _ => c' = c
      | _ => False
      end /\ awaited tr'
  | _ :: tr' => awaited tr'
  end.

(** A mapping with two read rules, a snapshot for it and the resources a
    remote service exposes with the readings before. *)
Definition reader_c2 : reader := fun snap => snap_get snap "svc" "c2".

Definition climate_definition : cloud_definition :=
  mkDefinition (Some [("temp", reader_c1); ("hum", reader_c2)]) (Some []).

Definition climate_snapshot : snapshot :=
  [("svc", [("c1", mkCharacteristic (JNum 21 eq_refl) None);
            ("c2", mkCharacteristic (JNum 40 eq_refl) None)])].

Definition climate_resources : resources :=
  expose [mkDescriptor "/temp" "dynamic" ["GET"] "20" (Some true);
          mkDescriptor "/hum" "dynamic" ["GET"] "39" (Some true)].

(** The list [generateLwm2mModel] makes of the keys [ks] when the remote
    service exposes [res]. *)
Definition generated (rd : table reader) (rk wk ks : list string)
    (sm : simplified) (res : resources) : descriptor_model :=
  map (rule_for rd rk wk res sm) ks.

(** A remote service is faithful when it exposes the model it was sent with
    a [setResourceModel] that resolved, gives a resource the value of a
    [setValue] that resolved, and exposes what it exposed before after any
    other call and after a rejected one. *)
Definition faithful {R : Type} (resources_of : R -> resources)
    (perform : call -> R -> reply * R) : Prop :=
  forall c rm,
    resources_of (snd (perform c rm))
    = match fst (perform c rm), c with
      | Resolved _, CSetResourceModel m => expose m
      | Resolved _, CSetValue p v => set_value p v (resources_of rm)
      | _, _ => resources_of rm
      end.

(** ** The rest of the object *)

(** [localNameChanged(localName)] *)
Definition localNameChanged (localName : string) (d : device) : piece :=
  (d, [EvEmit "localnamechange"], None).

(** The test of the value loop on one rule, with the device registered. *)
Definition changed (old : descriptor_model) (res : resources)
    (rule : descriptor) : bool :=
  differs (value rule) (old_value old res rule).

Definition is_setValue (c : call) : bool :=
  match c with
  | CSetValue _ _ => true
  | _ => false
  end.

(** The transport object [handle] belongs to a characteristic of [bm]. *)
Definition has_handle (bm : snapshot) (handle : nat) : Prop :=
  exists service chars chr c,
    lookup service bm = Some chars /\
    lookup chr chars = Some c /\
    char c = Some handle.

Definition octet (z : Z) : Prop := (0 <= z < 256)%Z.

(** [snap[service][chr]] in the snapshot itself. *)
Definition snapshot_get (m : snapshot) (service chr : string)
  : option characteristic :=
  match lookup service m with
  | Some chars => lookup chr chars
  | None => None
  end.

Definition simplified_get (sm : simplified) (service chr : string)
  : option jsval :=
  match lookup service sm with
  | Some chars => lookup chr chars
  | None => None
  end.

(** How often a trace logs that a characteristic could not be found. *)
Fixpoint count_no_characteristic (tr : list event) : nat :=
  match tr with
  | [] => 0
  | EvLog LogNoCharacteristic :: tr' => S (count_no_characteristic tr')
  | _ :: tr' => count_no_characteristic tr'
  end.

(** A snapshot with a writable characteristic, a write rule for it and a
    mapping that holds the rule. *)
Definition led_snapshot : snapshot :=
  [("svc", [("led", mkCharacteristic (JNum 0 eq_refl) (Some 7))])].

Definition led_writer : writer :=
  fun v => [("svc/led", WScalar 300); ("svc/gone", WArray [1; 2]%Z)].

Definition led_definition : cloud_definition :=
  mkDefinition (Some [("led", reader_c1)]) (Some [("led", led_writer)]).

Definition gone_writer : writer :=
  fun v => [("svc/gone", WScalar 1); ("nowhere", WArray [1; 2]%Z)].

Definition gone_definition : cloud_definition :=
  mkDefinition (Some []) (Some [("led", gone_writer)]).

(** A write table whose one rule is listed under a name every object has. *)
Definition shadow_definition : cloud_definition :=
  mkDefinition (Some []) (Some [("toString", led_writer)]).

(** The descriptor list a suspended piece of [bleModelUpdated] stores when
    its body ends: the local [curr]. *)
Definition target (k : cont) : descriptor_model :=
  match k with
  | KSetResourceModel curr | KDeregister curr | KRegister curr
  | KSetValue curr _ _ _ => curr
  | _ => []
  end.

(** The number of slashes of a string. *)
Fixpoint slashes (p : string) : nat :=
  match p with
  | EmptyString => 0
  | String c p' => (if Ascii.eqb c "/" then 1 else 0) + slashes p'
  end.

(** * Properties *)

Arguments getSchema model : simpl never.
Arguments generateLwm2mModel definition res m : simpl never.

(** ** Pieces: what a single run between two suspension points does *)

Lemma has_In (a : list string) (v : string) : has a v = true <-> In v a.
Proof.
  unfold has. induction a as [|x a IH]; simpl.
  - split; [discriminate | tauto].
  - destruct (String.eqb_spec x v) as [->|Hne].
    + split; auto.
    + destruct (indexOf a v).
      * split; intros _; [right; apply IH|]; reflexivity.
      * split; [discriminate|].
        intros [H|H]; [contradiction | apply IH in H; discriminate].
Qed.

Lemma has_false_In (a : list string) (v : string) :
  has a v = false <-> ~ In v a.
Proof.
  rewrite <- has_In. destruct (has a v); split; congruence.
Qed.

(** The value loop either ends the body or suspends in a [setValue] of a
    later rule; it never touches [registered]. *)
Lemma value_loop_spec curr old rules res d :
  forall d' tr k,
    value_loop curr old rules res d = (d', tr, k) ->
    registered d' = registered d /\
    match k with
    | None =>
        d' = set_model curr (set_modelUpdateInProgress false d) /\
        calls_of tr = []
    | Some k' =>
        d' = d /\
        exists rule rest,
          k' = KSetValue curr old rule rest /\
          calls_of tr = [pending k'] /\
          List.length rest < List.length rules /\
          exists skipped, rules = skipped ++ rule :: rest
    end.
Proof.
  induction rules as [|rule rest IH]; simpl; intros d' tr k H.
  - inversion H; subst. auto.
  - destruct (differs (value rule) (old_value old res rule) && registered d).
    + destruct (lookup (path rule) res); inversion H; subst; simpl.
      * split; [reflexivity|]. split; [reflexivity|].
        exists rule, rest. repeat split; auto. exists []. reflexivity.
      * auto.
    + specialize (IH _ _ _ H). destruct IH as [Hr Hk]. split; [exact Hr|].
      destruct k as [k'|]; [|exact Hk].
      destruct Hk as [Hd (r0 & rest0 & Hk' & Hc & Hlen & sk & Hsk)].
      split; [exact Hd|]. exists r0, rest0. repeat split; auto.
      exists (rule :: sk). simpl. now rewrite Hsk.
Qed.

Lemma value_loop_registered curr old rules res d :
  registered (fst (fst (value_loop curr old rules res d))) = registered d.
Proof.
  destruct (value_loop curr old rules res d) as [[d' tr] k] eqn:E.
  apply value_loop_spec in E. simpl. tauto.
Qed.

(** Resuming a piece of [bleModelUpdated] stays in [bleModelUpdated], gets
    nearer to its end and leaves [registered] alone. *)
Lemma resume_reconciling k r res d :
  reconciling k = true ->
  forall d' tr next,
    resume k r res d = (d', tr, next) ->
    registered d' = registered d /\
    match next with
    | Some k' => reconciling k' = true /\ cont_size k' < cont_size k
    | None => True
    end.
Proof.
  intros Hk d' tr next H.
  destruct k; try discriminate Hk; destruct r; simpl in H;
    try (inversion H; subst; simpl; auto; fail).
  destruct (value_loop curr old rest res d) as [[d1 tr1] k1] eqn:E.
  inversion H; subst. apply value_loop_spec in E. destruct E as [Hr Hn].
  split; [exact Hr|]. destruct next as [k'|]; [|exact I].
  destruct Hn as [_ (r0 & rest0 & -> & _ & Hlen & _)]. simpl. split; [reflexivity|lia].
Qed.

Lemma resume_decreases k r res d d' tr k' :
  resume k r res d = (d', tr, Some k') -> cont_size k' < cont_size k.
Proof.
  intros H. destruct (reconciling k) eqn:Hk.
  - apply (resume_reconciling _ _ _ _ Hk) in H. tauto.
  - destruct k; try discriminate Hk; destruct r; simpl in H;
      try discriminate H.
    destruct v; try discriminate H. destruct b; inversion H. simpl. lia.
Qed.

Section RemoteFacts.

Variable R : Type.
Variable resources_of : R -> resources.
Variable perform : call -> R -> reply * R.

(** With the fuel [run] gives it, a body always reaches its end. *)
Lemma run_fuel_ends n :
  forall k rm d, cont_size k <= n ->
    snd (fst (run_fuel resources_of perform n k rm d)) = None.
Proof.
  induction n as [|n IH]; intros k rm d Hn.
  - destruct k; simpl in Hn; lia.
  - simpl. destruct (perform (pending k) rm) as [r rm1].
    destruct (resume k r (resources_of rm1) d) as [[d1 evs] next] eqn:E.
    destruct next as [k'|]; [|reflexivity].
    apply resume_decreases in E.
    specialize (IH k' rm1 d1 ltac:(lia)).
    destruct (run_fuel resources_of perform n k' rm1 d1)
      as [[[d2 evs'] more] rm2].
    exact IH.
Qed.

Lemma run_ends k rm d : snd (fst (run resources_of perform k rm d)) = None.
Proof. apply run_fuel_ends. lia. Qed.

Lemma settle_ends p rm : snd (fst (settle resources_of perform p rm)) = None.
Proof.
  destruct p as [[d tr] [k|]]; simpl; [|reflexivity].
  pose proof (run_ends k rm d) as H.
  destruct (run resources_of perform k rm d) as [[[d' tr'] more] rm'].
  exact H.
Qed.

Lemma run_fuel_registered n :
  forall k rm d, reconciling k = true ->
    registered (fst (fst (fst (run_fuel resources_of perform n k rm d))))
    = registered d.
Proof.
  induction n as [|n IH]; intros k rm d Hk; [reflexivity|].
  simpl. destruct (perform (pending k) rm) as [r rm1].
  destruct (resume k r (resources_of rm1) d) as [[d1 evs] next] eqn:E.
  apply (resume_reconciling _ _ _ _ Hk) in E. destruct E as [Hr Hn].
  destruct next as [k'|]; [|exact Hr].
  destruct Hn as [Hk' _]. specialize (IH k' rm1 d1 Hk').
  destruct (run_fuel resources_of perform n k' rm1 d1)
    as [[[d2 evs'] more] rm2].
  simpl in *. congruence.
Qed.

End RemoteFacts.

(** ** Deduplication keeps the first occurrence *)

Lemma indexOf_lt (a : list string) (v : string) (i : nat) :
  indexOf a v = Some i -> i < List.length a.
Proof.
  revert i. induction a as [|x a IH]; simpl; intros i H; [discriminate|].
  destruct (String.eqb x v).
  - inversion H. lia.
  - destruct (indexOf a v) as [j|]; [|discriminate].
    inversion H. specialize (IH j eq_refl). lia.
Qed.

Lemma indexOf_app_old (pre suf : list string) (v : string) :
  has pre v = true -> indexOf (pre ++ suf) v = indexOf pre v.
Proof.
  unfold has. induction pre as [|x pre IH]; simpl; [discriminate|].
  destruct (String.eqb x v); [reflexivity|].
  destruct (indexOf pre v) eqn:E; [|discriminate].
  intros _. rewrite IH; reflexivity.
Qed.

Lemma indexOf_app_new (pre suf : list string) (v : string) :
  has pre v = false ->
  indexOf (pre ++ v :: suf) v = Some (List.length pre).
Proof.
  unfold has. induction pre as [|x pre IH]; simpl.
  - rewrite String.eqb_refl. reflexivity.
  - destruct (String.eqb x v); [discriminate|].
    destruct (indexOf pre v) eqn:E; [discriminate|].
    intros _. rewrite IH; reflexivity.
Qed.

Lemma has_app (a b : list string) (v : string) :
  has (a ++ b) v = has a v || has b v.
Proof.
  apply eq_true_iff_eq. rewrite orb_true_iff, !has_In, in_app_iff. tauto.
Qed.

Lemma dedupe_from (suf : list string) :
  forall pre seen,
    (forall v, has seen v = has pre v) ->
    filter_from
      (fun v i => match indexOf (pre ++ suf) v with
                  | Some j => Nat.eqb j i
                  | None => false
                  end)
      (List.length pre) suf
    = first_seen seen suf.
Proof.
  induction suf as [|v suf IH]; intros pre seen Hseen; simpl; [reflexivity|].
  assert (Happ : pre ++ v :: suf = (pre ++ [v]) ++ suf)
    by (rewrite <- app_assoc; reflexivity).
  assert (Hlen : S (List.length pre) = List.length (pre ++ [v]))
    by (rewrite length_app; simpl; lia).
  rewrite Hseen. destruct (has pre v) eqn:Hv.
  - rewrite indexOf_app_old by exact Hv.
    assert (Hj : exists j, indexOf pre v = Some j /\ j < List.length pre).
    { unfold has in Hv. destruct (indexOf pre v) as [j|] eqn:Ej; [|discriminate].
      exists j. split; [reflexivity|]. now apply indexOf_lt in Ej. }
    destruct Hj as (j & -> & Hj).
    destruct (Nat.eqb_spec j (List.length pre)) as [Heq|_]; [lia|].
    rewrite Happ, Hlen. apply IH.
    intros w. rewrite Hseen, has_app.
    destruct (has pre w) eqn:Hw; [reflexivity|]. simpl.
    unfold has at 1. simpl. destruct (String.eqb_spec v w) as [Hvw|]; [|reflexivity].
    subst w. congruence.
  - rewrite indexOf_app_new by exact Hv. rewrite Nat.eqb_refl.
    f_equal. rewrite Happ, Hlen. apply IH.
    intros w. rewrite !has_app, Hseen. reflexivity.
Qed.

(** The index filter of [generateLwm2mModel] is first-occurrence
    deduplication. *)
Lemma dedupe_first_seen (a : list string) : dedupe a = first_seen [] a.
Proof. exact (dedupe_from a [] [] (fun v => eq_refl)). Qed.

Lemma first_seen_In (a : list string) :
  forall seen v, In v (first_seen seen a) <-> In v a /\ ~ In v seen.
Proof.
  induction a as [|x a IH]; intros seen v; simpl; [tauto|].
  destruct (has seen x) eqn:Hx.
  - rewrite IH. apply has_In in Hx. split.
    + tauto.
    + intros [[->|H] Hn]; [contradiction | tauto].
  - apply has_false_In in Hx. simpl. rewrite IH, in_app_iff. simpl.
    destruct (string_dec x v) as [->|Hne]; [tauto|]. tauto.
Qed.

Lemma first_seen_NoDup (a : list string) :
  forall seen, NoDup (first_seen seen a).
Proof.
  induction a as [|x a IH]; intros seen; simpl; [constructor|].
  destruct (has seen x); [apply IH|].
  constructor; [|apply IH].
  rewrite first_seen_In, in_app_iff. simpl. tauto.
Qed.

Lemma dedupe_In (a : list string) (v : string) : In v (dedupe a) <-> In v a.
Proof. rewrite dedupe_first_seen, first_seen_In. simpl. tauto. Qed.

Lemma dedupe_NoDup (a : list string) : NoDup (dedupe a).
Proof. rewrite dedupe_first_seen. apply first_seen_NoDup. Qed.

(** ** The schema fingerprint can be read back *)

Local Open Scope string_scope.

Lemma append_assoc (a b c : string) : (a ++ b) ++ c = a ++ (b ++ c).
Proof. induction a as [|x a IH]; simpl; [reflexivity | now rewrite IH]. Qed.

Lemma unescape_escape_char (c : ascii) (r : string) :
  unescape_char (escape_char c ++ r) = Some (c, r).
Proof. destruct c as [[] [] [] [] [] [] [] []]; reflexivity. Qed.

Lemma escape_char_not_quote (c : ascii) (r r' : string) :
  escape_char c ++ r <> String dquote r'.
Proof.
  intros H. apply (f_equal unescape_char) in H.
  rewrite unescape_escape_char in H. discriminate H.
Qed.

Lemma escape_inj (s1 : string) :
  forall s2 r1 r2,
    escape s1 ++ String dquote r1 = escape s2 ++ String dquote r2 ->
    s1 = s2 /\ r1 = r2.
Proof.
  induction s1 as [|c1 s1 IH]; intros [|c2 s2] r1 r2 H; simpl in H.
  - inversion H. auto.
  - rewrite append_assoc in H. symmetry in H.
    now apply escape_char_not_quote in H.
  - rewrite append_assoc in H. now apply escape_char_not_quote in H.
  - rewrite !append_assoc in H. apply (f_equal unescape_char) in H.
    rewrite !unescape_escape_char in H. inversion H as [[Hc Hr]].
    apply IH in Hr. destruct Hr. subst. auto.
Qed.

Lemma json_string_app (s r : string) :
  json_string s ++ r = String dquote (escape s ++ String dquote r).
Proof. unfold json_string. simpl. now rewrite append_assoc. Qed.

(** A quoted string ends where it ends: what follows it is never taken for
    a part of it. *)
Lemma json_string_inj (s1 s2 r1 r2 : string) :
  json_string s1 ++ r1 = json_string s2 ++ r2 -> s1 = s2 /\ r1 = r2.
Proof.
  rewrite !json_string_app. intros H. inversion H as [H1].
  now apply escape_inj.
Qed.

Section Arrays.

Variable A : Type.
Variable f : A -> string.
Hypothesis f_inj :
  forall a1 a2 r1 r2, f a1 ++ r1 = f a2 ++ r2 -> a1 = a2 /\ r1 = r2.
Hypothesis f_first :
  forall a r r', f a ++ r <> String "]" r'.

Lemma join_cons_app (a : A) (l : list A) (r : string) :
  join "," (map f (a :: l)) ++ r
  = f a ++ match l with
           | [] => r
           | _ => String "," (join "," (map f l) ++ r)
           end.
Proof.
  destruct l as [|b l]; [reflexivity|].
  cbn [map join]. now rewrite append_assoc.
Qed.

Lemma join_inj (l1 : list A) :
  forall l2 r1 r2,
    join "," (map f l1) ++ String "]" r1
    = join "," (map f l2) ++ String "]" r2 ->
    l1 = l2 /\ r1 = r2.
Proof.
  induction l1 as [|a l1 IH]; intros [|b l2] r1 r2 H.
  - inversion H. auto.
  - rewrite join_cons_app in H. symmetry in H. now apply f_first in H.
  - rewrite join_cons_app in H. now apply f_first in H.
  - rewrite !join_cons_app in H. apply f_inj in H. destruct H as [-> H].
    destruct l1 as [|a1 l1], l2 as [|b1 l2]; try discriminate H.
    + inversion H. auto.
    + injection H as H'.
      change (join "," (map f (a1 :: l1)) ++ String "]" r1
              = join "," (map f (b1 :: l2)) ++ String "]" r2) in H'.
      apply IH in H'. destruct H' as [H' ->]. now rewrite H'.
Qed.

Lemma json_array_inj (l1 l2 : list A) (r1 r2 : string) :
  json_array (map f l1) ++ r1 = json_array (map f l2) ++ r2 ->
  l1 = l2 /\ r1 = r2.
Proof.
  unfold json_array. rewrite !append_assoc. simpl.
  intros H. inversion H as [H']. now apply join_inj.
Qed.

End Arrays.

Lemma json_string_first (s r r' : string) :
  json_string s ++ r <> String "]" r'.
Proof. rewrite json_string_app. intros H. inversion H. Qed.

Lemma json_observable_inj (o1 o2 : option bool) (r1 r2 : string) :
  json_observable o1 ++ r1 = json_observable o2 ++ r2 -> o1 = o2 /\ r1 = r2.
Proof.
  destruct o1 as [[]|], o2 as [[]|]; cbv; intros H; inversion H; auto.
Qed.

Lemma json_rule_app (rule : bare_rule) (r : string) :
  json_rule rule ++ r
  = String "{"
      (json_string "path" ++ String ":"
        (json_string (bare_path rule) ++ String ","
          (json_string "valueType" ++ String ":"
            (json_string (bare_valueType rule) ++ String ","
              (json_string "operation" ++ String ":"
                (json_array (map json_string (bare_operation rule))
                 ++ (json_observable (bare_observable rule) ++ r))))))).
Proof.
  unfold json_rule, json_prop. rewrite !append_assoc. reflexivity.
Qed.

Lemma String_tail (c1 c2 : ascii) (a b : string) :
  String c1 a = String c2 b -> a = b.
Proof. intros H. now inversion H. Qed.

Lemma json_rule_inj (a1 a2 : bare_rule) (r1 r2 : string) :
  json_rule a1 ++ r1 = json_rule a2 ++ r2 -> a1 = a2 /\ r1 = r2.
Proof.
  rewrite !json_rule_app. intros H. apply String_tail in H.
  apply json_string_inj in H. destruct H as [_ H]. apply String_tail in H.
  apply json_string_inj in H. destruct H as [Hp H]. apply String_tail in H.
  apply json_string_inj in H. destruct H as [_ H]. apply String_tail in H.
  apply json_string_inj in H. destruct H as [Hv H]. apply String_tail in H.
  apply json_string_inj in H. destruct H as [_ H]. apply String_tail in H.
  apply (json_array_inj _ _ json_string_inj json_string_first) in H.
  destruct H as [Ho H]. apply json_observable_inj in H. destruct H as [Hb Hr].
  destruct a1, a2; simpl in *; subst; auto.
Qed.

Lemma json_rule_first (a : bare_rule) (r r' : string) :
  json_rule a ++ r <> String "]" r'.
Proof. rewrite json_rule_app. intros H. inversion H. Qed.

(** Equal fingerprints come from equal rules once the value is deleted. *)
Lemma getSchema_inj (l1 l2 : descriptor_model) :
  getSchema l1 = getSchema l2 -> map delete_value l1 = map delete_value l2.
Proof.
  unfold getSchema. intros H.
  assert (H' : json_array (map json_rule (map delete_value l1)) ++ EmptyString
               = json_array (map json_rule (map delete_value l2)) ++ EmptyString)
    by now rewrite H.
  apply (json_array_inj _ _ json_rule_inj json_rule_first) in H'. tauto.
Qed.

Local Open Scope list_scope.

(** ** The schema fingerprint *)

Lemma same_but_value_delete (l1 l2 : descriptor_model) :
  Forall2 same_but_value l1 l2 <-> map delete_value l1 = map delete_value l2.
Proof.
  split.
  - induction 1 as [|a b l1 l2 (Hp & Hv & Ho & Hb) _ IH]; [reflexivity|].
    simpl. rewrite IH. unfold delete_value. now rewrite Hp, Hv, Ho, Hb.
  - revert l2. induction l1 as [|a l1 IH]; intros [|b l2] H;
      try discriminate H; constructor.
    + simpl in H. inversion H. repeat split; assumption.
    + simpl in H. inversion H. now apply IH.
Qed.

Lemma getSchema_value_irrelevant (l1 l2 : descriptor_model) :
  Forall2 same_but_value l1 l2 -> getSchema l1 = getSchema l2.
Proof.
  intros H. apply same_but_value_delete in H. unfold getSchema. now rewrite H.
Qed.

(** C5.  The fingerprint of a descriptor list is taken from the descriptors
    in list order with their values left out: two lists whose descriptors
    differ in nothing but the value have the same fingerprint; so have two
    lists of descriptors of the generated shape (value type dynamic) whose
    paths, operations and observable flags agree position by position; and
    two lists that hold, at one position, descriptors with different paths,
    operations or observable flags have different fingerprints. *)
Theorem fingerprint_ignores_values_only (l1 l2 : descriptor_model) :
  (Forall2 same_but_value l1 l2 -> getSchema l1 = getSchema l2) /\
  (Forall (fun r => valueType r = "dynamic") l1 ->
   Forall (fun r => valueType r = "dynamic") l2 ->
   Forall2 (fun a b => path a = path b /\ operation a = operation b /\
                       observable a = observable b) l1 l2 ->
   getSchema l1 = getSchema l2) /\
  (forall i d1 d2,
      nth_error l1 i = Some d1 -> nth_error l2 i = Some d2 ->
      path d1 <> path d2 \/ operation d1 <> operation d2 \/
      observable d1 <> observable d2 ->
      getSchema l1 <> getSchema l2).
Proof.
  split; [apply getSchema_value_irrelevant|]. split.
  { intros H1 H2 H. apply getSchema_value_irrelevant.
    induction H as [|a b l1' l2' (Hp & Ho & Hb) _ IH]; [constructor|].
    inversion H1; subst. inversion H2; subst.
    constructor; [|now apply IH].
    unfold same_but_value. repeat split; congruence. }
  intros i d1 d2 H1 H2 Hdiff Heq.
  apply getSchema_inj, same_but_value_delete in Heq.
  revert i H1 H2. induction Heq as [|a b l1 l2 Hab _ IH]; intros [|i] H1 H2;
    simpl in *; try discriminate.
  - injection H1 as ->. injection H2 as ->.
    destruct Hab as (Hp & _ & Ho & Hb). tauto.
  - eauto.
Qed.

(** The scenario of the fingerprint: the value does not count, a second
    operation does. *)
Lemma fingerprint_ignores_values_only_witness :
  getSchema [temp_descriptor "21"] = getSchema [temp_descriptor "22"] /\
  getSchema [temp_descriptor "21"]
  <> getSchema [mkDescriptor "/temp" "dynamic" ["GET"; "PUT"] "21" (Some true)].
Proof.
  split.
  - apply (proj1 (fingerprint_ignores_values_only _ _)).
    repeat constructor.
  - apply (proj2 (proj2 (fingerprint_ignores_values_only
                    [temp_descriptor "21"]
                    [mkDescriptor "/temp" "dynamic" ["GET"; "PUT"] "21"
                                  (Some true)]))
                 0 _ _ eq_refl eq_refl).
    right. left. simpl. discriminate.
Defined.

(** ** Building the descriptor list *)

Lemma generate_tables definition res m rd wr :
  read definition = Some rd -> write definition = Some wr ->
  generateLwm2mModel definition res m
  = Some (map (rule_for rd (keys rd) (keys wr) res (createSimplifiedModel m))
              (dedupe (keys rd ++ keys wr))).
Proof. intros Hr Hw. unfold generateLwm2mModel. now rewrite Hr, Hw. Qed.

Lemma rule_for_path rd rk wk res sm k :
  path (rule_for rd rk wk res sm k) = String "/" k.
Proof. reflexivity. Qed.

Lemma slash_inj : forall k1 k2 : string, String "/" k1 = String "/" k2 -> k1 = k2.
Proof. intros k1 k2 H. now inversion H. Qed.

Lemma NoDup_map_slash (l : list string) :
  NoDup l -> NoDup (map (String "/") l).
Proof.
  induction 1 as [|k l Hk _ IH]; simpl; constructor; [|exact IH].
  rewrite in_map_iff. intros (k' & Hk' & Hin).
  apply slash_inj in Hk'. now subst k'.
Qed.

Lemma generated_paths_NoDup definition res m curr :
  generateLwm2mModel definition res m = Some curr -> NoDup (map path curr).
Proof.
  unfold generateLwm2mModel.
  destruct (read definition) as [rd|]; [|discriminate].
  destruct (write definition) as [wr|]; [|discriminate].
  intros H. injection H as <-. rewrite map_map.
  rewrite (map_ext _ (String "/")) by reflexivity.
  apply NoDup_map_slash, dedupe_NoDup.
Qed.

(** C6, amended.  When the mapping has both a read and a write table, the
    generated list has one descriptor per key of the two tables, read keys
    before write keys and each key where it is first seen; the path is the
    key after a slash, GET is among the operations exactly for the keys with
    a reader and PUT exactly for the keys with a writer, and observable is
    true for the keys with a reader and absent for the others.  With the
    mapping [{read: {temp: snap => snap.svc.c1}, write: {}}], the snapshot
    [{svc: {c1: {value: 21}}}] and no remote resource, the list is the one
    descriptor of path /temp, operation GET, value 21, observable true. *)
Theorem generated_model_shape :
  (forall definition res m rd wr,
      read definition = Some rd -> write definition = Some wr ->
      exists curr,
        generateLwm2mModel definition res m = Some curr /\
        map path curr
        = map (String "/") (first_seen [] (keys rd ++ keys wr)) /\
        NoDup (map path curr) /\
        (forall k, In k (keys rd ++ keys wr) <->
                   In (String "/" k) (map path curr)) /\
        (forall r, In r curr ->
           exists k,
             path r = String "/" k /\
             (In "GET" (operation r) <-> In k (keys rd)) /\
             (In "PUT" (operation r) <-> In k (keys wr)) /\
             (In k (keys rd) -> observable r = Some true) /\
             (~ In k (keys rd) -> observable r = None))) /\
  generateLwm2mModel temp_definition [] snapshot_21
  = Some [temp_descriptor "21"].
Proof.
  split; [|reflexivity].
  intros definition res m rd wr Hr Hw.
  pose proof (generate_tables definition res m rd wr Hr Hw) as Hgen.
  eexists. split; [exact Hgen|].
  assert (Hpaths :
            map path
                (map (rule_for rd (keys rd) (keys wr) res
                               (createSimplifiedModel m))
                     (dedupe (keys rd ++ keys wr)))
            = map (String "/") (first_seen [] (keys rd ++ keys wr))).
  { rewrite map_map, dedupe_first_seen. reflexivity. }
  split; [exact Hpaths|].
  split; [eapply generated_paths_NoDup; exact Hgen|].
  split.
  - intros k. rewrite Hpaths, in_map_iff. split.
    + intros H. exists k. split; [reflexivity|].
      apply first_seen_In. simpl. tauto.
    + intros (k' & Hk' & Hin). apply slash_inj in Hk'. subst k'.
      apply first_seen_In in Hin. tauto.
  - intros r Hin. apply in_map_iff in Hin. destruct Hin as (k & <- & _).
    exists k. split; [reflexivity|]. unfold rule_for; simpl.
    rewrite <- !has_In.
    destruct (has (keys rd) k), (has (keys wr) k); simpl;
      repeat split; intros H; try reflexivity; auto;
      try discriminate H; try (exfalso; apply H; reflexivity);
      repeat (destruct H as [H|H]; try discriminate H); try contradiction.
Qed.

Lemma generated_model_shape_witness :
  exists curr,
    generateLwm2mModel temp_definition [] snapshot_22 = Some curr /\
    map path curr = ["/temp"].
Proof.
  destruct (proj1 generated_model_shape temp_definition [] snapshot_22
                  [("temp", reader_c1)] [] eq_refl eq_refl)
    as (curr & Hgen & Hpaths & _).
  exists curr. split; [exact Hgen | exact Hpaths].
Defined.

(** C6, as it is written: with the mapping [{read: {temp: snap =>
    snap.svc.c1.value}}] the build ends in the TypeError of the missing
    write table; with an empty write table added, the reader is handed the
    simplified snapshot, where [snap.svc.c1] is the number itself, so the
    value of the descriptor is the empty string and not 21. *)
Lemma scenario_as_written_fails :
  generateLwm2mModel scenario_definition [] snapshot_21 = None /\
  generateLwm2mModel scenario_definition_rw [] snapshot_21
  = Some [temp_descriptor EmptyString] /\
  generateLwm2mModel scenario_definition [] snapshot_21
  <> Some [temp_descriptor "21"] /\
  generateLwm2mModel scenario_definition_rw [] snapshot_21
  <> Some [temp_descriptor "21"].
Proof. repeat split; try reflexivity; discriminate. Qed.



(** ** Inbound writes *)

(** C9.  A remote write whose key the write table does not list is not
    always ignored: [onPut] reads [write[key]] like any property, and a name
    of [Object.prototype] passes its test.  With an empty write table, the
    write to [/__proto__] logs the line of a write that has a rule and then
    calls what the table reads as under [__proto__], which is no function:
    a [TypeError] leaves [onPut].  The write to [/constructor] logs the same
    line and calls [Object] with the value. *)
Theorem put_to_inherited_key_is_not_ignored (js : engine) :
  write temp_definition = Some [] /\
  onPut js "/__proto__" (JStr "on") (registered_device temp_definition)
  = [EvLog (LogWriteFromCloud "/__proto__" (JStr "on")); EvThrow] /\
  onPut js "/constructor" (JStr "on") (registered_device temp_definition)
  = [EvLog (LogWriteFromCloud "/constructor" (JStr "on"));
     EvInherited "constructor" (JStr "on")].
Proof. repeat split. Qed.

(** ** Connectivity *)

(** C8.  When the state becomes disconnected, a device that is not
    registered calls nothing; a registered device calls deregister once and
    nothing else, and however that call settles, and whatever happened to
    the device while the call was pending, the device is not registered
    afterwards. *)
Theorem disconnect_deregisters_once
    (R : Type) (resources_of : R -> resources)
    (perform : call -> R -> reply * R)
    (error : jsval) (rm : R) (d : device) :
  calls_of (snd (fst (updateState "disconnected" error d)))
  = (if registered d then [CDeregister] else []) /\
  snd (updateState "disconnected" error d)
  = (if registered d then Some KDisconnect else None) /\
  (forall r res d', registered (fst (fst (resume KDisconnect r res d'))) = false
                    /\ calls_of (snd (fst (resume KDisconnect r res d'))) = []
                    /\ snd (resume KDisconnect r res d') = None) /\
  (let '((d', tr, k), _) :=
     settle resources_of perform (updateState "disconnected" error d) rm in
   k = None /\ registered d' = false /\
   calls_of tr = (if registered d then [CDeregister] else [])).
Proof.
  unfold updateState, statechange, settle, run. simpl.
  destruct (registered d) eqn:Hreg; simpl.
  - repeat split; try (destruct r; reflexivity).
    destruct (perform CDeregister rm) as [[v|] rm1]; simpl; auto.
  - repeat split; try (destruct r; reflexivity). exact Hreg.
Qed.

(** ** The registered flag under reconciliation *)

(** C10.  No piece of [bleModelUpdated] writes the registered flag: not the
    piece that starts the method, not a piece resumed after a call of the
    method has settled either way, and so not a whole reconciliation. *)
Theorem reconciliation_keeps_registered :
  (forall m res d,
      registered (fst (fst (bleModelUpdated m res d))) = registered d) /\
  (forall k r res d,
      reconciling k = true ->
      registered (fst (fst (resume k r res d))) = registered d) /\
  (forall (R : Type) (resources_of : R -> resources)
          (perform : call -> R -> reply * R) m rm d,
      registered (fst (fst (fst (reconcile resources_of perform m rm d))))
      = registered d).
Proof.
  assert (H1 : forall m res d,
             registered (fst (fst (bleModelUpdated m res d))) = registered d).
  { intros m res d. unfold bleModelUpdated.
    destruct (generateLwm2mModel (cloudDefinition d) res m) as [curr|];
      [|reflexivity].
    simpl. destruct (modelUpdateInProgress d); [reflexivity|].
    match goal with |- context [if ?c then _ else _] => destruct c end;
      [reflexivity|].
    match goal with |- context [value_loop ?a ?b ?c ?e ?f] =>
      pose proof (value_loop_registered a b c e f) as Hv;
      destruct (value_loop a b c e f) as [[d' tr] k] end.
    exact Hv. }
  split; [exact H1|]. split.
  - intros k r res d Hk.
    destruct (resume k r res d) as [[d' tr] next] eqn:E.
    apply (resume_reconciling _ _ _ _ Hk) in E. simpl. tauto.
  - intros R resources_of perform m rm d. unfold reconcile, settle.
    specialize (H1 m (resources_of rm) d).
    destruct (bleModelUpdated m (resources_of rm) d) as [[d1 tr] [k|]] eqn:E;
      [|exact H1].
    assert (Hk : reconciling k = true).
    { unfold bleModelUpdated in E.
      destruct (generateLwm2mModel (cloudDefinition d) (resources_of rm) m);
        [|discriminate E].
      simpl in E. destruct (modelUpdateInProgress d); [discriminate E|].
      match type of E with context [if ?c then _ else _] => destruct c end.
      - injection E as _ _ <-. reflexivity.
      - match type of E with context [value_loop ?a ?b ?c ?e ?f] =>
          destruct (value_loop a b c e f) as [[d' tr'] k'] eqn:Ev end.
        injection E as _ _ ->. apply value_loop_spec in Ev.
        destruct Ev as [_ [_ (r0 & rest0 & -> & _)]]. reflexivity. }
    pose proof (run_fuel_registered R resources_of perform (cont_size k)
                                    k rm d1 Hk) as Hrun.
    unfold run. simpl in H1.
    destruct (run_fuel resources_of perform (cont_size k) k rm d1)
      as [[[d2 tr2] more] rm2].
    simpl in *. congruence.
Qed.

(** The flag while deregister resolves and register is rejected. *)
Lemma reconciliation_keeps_registered_witness :
  registered
    (fst (fst (resume (KRegister [temp_descriptor "21"]) Rejected []
                      (registered_device temp_definition))))
  = true /\
  let '((d', tr, _), _) :=
    reconcile exposed mirror_perform snapshot_21
              (mkMirror [] [true; true; false])
              (registered_device temp_definition) in
  registered d' = true /\
  In (EvSettled CDeregister (Resolved JUndefined)) tr /\
  In (EvSettled CRegister Rejected) tr.
Proof.
  split.
  - exact (proj1 (proj2 reconciliation_keeps_registered)
                 (KRegister [temp_descriptor "21"]) Rejected []
                 (registered_device temp_definition) eq_refl).
  - pose proof (proj2 (proj2 reconciliation_keeps_registered) mirror exposed
                      mirror_perform snapshot_21
                      (mkMirror [] [true; true; false])
                      (registered_device temp_definition)) as H.
    revert H.
    destruct (reconcile exposed mirror_perform snapshot_21
                (mkMirror [] [true; true; false])
                (registered_device temp_definition))
      as [[[d' tr] k] rm] eqn:E.
    intros H. simpl in H. split; [exact H|].
    vm_compute in E. injection E as _ <- _ _.
    split; simpl; tauto.
Defined.

(** ** The ways into bleModelUpdated *)

Lemma bleModelUpdated_throws m res d :
  generateLwm2mModel (cloudDefinition d) res m = None ->
  bleModelUpdated m res d = (d, [EvEmit "ble-model-updated"; EvThrow], None).
Proof. intros Hgen. unfold bleModelUpdated. now rewrite Hgen. Qed.

Lemma bleModelUpdated_dropped m res d curr :
  generateLwm2mModel (cloudDefinition d) res m = Some curr ->
  modelUpdateInProgress d = true ->
  bleModelUpdated m res d
  = (set_model curr (set_bleModel m d),
     [EvEmit "ble-model-updated"; EvLog LogAlreadyUpdating],
     None).
Proof.
  intros Hgen Hflag. unfold bleModelUpdated. rewrite Hgen. cbv zeta.
  change (modelUpdateInProgress (set_bleModel m d))
    with (modelUpdateInProgress d).
  now rewrite Hflag.
Qed.

Lemma bleModelUpdated_schema_change m res d curr :
  generateLwm2mModel (cloudDefinition d) res m = Some curr ->
  modelUpdateInProgress d = false ->
  registered d = true ->
  getSchema curr <> getSchema (values res) ->
  bleModelUpdated m res d
  = (set_modelUpdateInProgress true (set_bleModel m d),
     [EvEmit "ble-model-updated"; EvLog (LogSchemaChange curr);
      EvLog LogSetResourceModel; EvCall (CSetResourceModel curr)],
     Some (KSetResourceModel curr)).
Proof.
  intros Hgen Hflag Hreg Hschema. unfold bleModelUpdated. rewrite Hgen.
  cbv zeta.
  change (modelUpdateInProgress (set_bleModel m d))
    with (modelUpdateInProgress d).
  change (registered (set_modelUpdateInProgress true (set_bleModel m d)))
    with (registered d).
  apply String.eqb_neq in Hschema. now rewrite Hflag, Hreg, Hschema.
Qed.

Lemma bleModelUpdated_values m res d curr :
  generateLwm2mModel (cloudDefinition d) res m = Some curr ->
  modelUpdateInProgress d = false ->
  registered d = false \/ getSchema curr = getSchema (values res) ->
  bleModelUpdated m res d
  = (let '(d', evs, k) :=
       value_loop curr (model d) curr res
                  (set_modelUpdateInProgress true (set_bleModel m d)) in
     (d', EvEmit "ble-model-updated" :: evs, k)).
Proof.
  intros Hgen Hflag Hcase. unfold bleModelUpdated. rewrite Hgen.
  cbv zeta.
  change (modelUpdateInProgress (set_bleModel m d))
    with (modelUpdateInProgress d).
  change (registered (set_modelUpdateInProgress true (set_bleModel m d)))
    with (registered d).
  rewrite Hflag. destruct Hcase as [Hreg | Hschema].
  - rewrite Hreg. now rewrite andb_false_r.
  - apply String.eqb_eq in Hschema. now rewrite Hschema.
Qed.

(** ** The schema-change sequence *)

(** C3, amended.  When a snapshot arrives while no reconciliation is in
    flight, its fingerprint differs from that of the resources the remote
    service exposes and the device is registered, the remote calls of the
    reconciliation are setResourceModel with the new list, deregister and
    register, in this order, each issued after the one before it has
    resolved; a rejected call is the last one.  The registered flag is true
    at the end, the in-flight flag is cleared and the new list is stored. *)
Theorem schema_change_sequence
    (R : Type) (resources_of : R -> resources)
    (perform : call -> R -> reply * R)
    (m : snapshot) (rm : R) (d : device) (curr : descriptor_model) :
  generateLwm2mModel (cloudDefinition d) (resources_of rm) m = Some curr ->
  modelUpdateInProgress d = false ->
  registered d = true ->
  getSchema curr <> getSchema (values (resources_of rm)) ->
  let '((d', tr, k), _) := reconcile resources_of perform m rm d in
  k = None /\
  registered d' = true /\
  modelUpdateInProgress d' = false /\
  model d' = curr /\
  calls_of tr
  = (let '(r1, rm1) := perform (CSetResourceModel curr) rm in
     match r1 with
     | Rejected => [CSetResourceModel curr]
     | Resolved _ =>
         let '(r2, _) := perform CDeregister rm1 in
         match r2 with
         | Rejected => [CSetResourceModel curr; CDeregister]
         | Resolved _ => [CSetResourceModel curr; CDeregister; CRegister]
         end
     end) /\
  awaited tr /\
  aborts_on_rejection tr.
Proof.
  intros Hgen Hflag Hreg Hschema. unfold reconcile.
  rewrite (bleModelUpdated_schema_change _ _ _ _ Hgen Hflag Hreg Hschema).
  unfold settle, run. simpl.
  destruct (perform (CSetResourceModel curr) rm) as [[v1|] rm1]; simpl;
    [|rewrite Hreg; repeat split; auto].
  destruct (perform CDeregister rm1) as [[v2|] rm2]; simpl;
    [|rewrite Hreg; repeat split; auto].
  destruct (perform CRegister rm2) as [[v3|] rm3]; simpl; rewrite Hreg;
    repeat split; auto.
Qed.

Lemma schema_change_sequence_witness :
  let '((d', tr, k), _) :=
    reconcile exposed mirror_perform snapshot_21 (mkMirror [] [])
              (registered_device temp_definition) in
  k = None /\
  registered d' = true /\
  modelUpdateInProgress d' = false /\
  model d' = [temp_descriptor "21"] /\
  calls_of tr
  = [CSetResourceModel [temp_descriptor "21"]; CDeregister; CRegister] /\
  awaited tr /\
  aborts_on_rejection tr.
Proof.
  apply (schema_change_sequence mirror exposed mirror_perform snapshot_21
           (mkMirror [] []) (registered_device temp_definition)
           [temp_descriptor "21"]).
  - reflexivity.
  - reflexivity.
  - reflexivity.
  - vm_compute. discriminate.
Defined.

(** C3, as it is written: the device is registered and the fingerprint of
    the snapshot differs from the one of the remote resources, but a
    reconciliation is in flight; the snapshot is dropped and no call is
    made. *)
Lemma schema_change_dropped_in_flight :
  let d := set_modelUpdateInProgress true
             (registered_device temp_definition) in
  registered d = true /\
  generateLwm2mModel (cloudDefinition d) [] snapshot_21
  = Some [temp_descriptor "21"] /\
  getSchema [temp_descriptor "21"] <> getSchema (values []) /\
  calls_of (snd (fst (fst (reconcile exposed mirror_perform snapshot_21
                                     (mkMirror [] []) d))))
  = [].
Proof.
  repeat split. vm_compute. discriminate.
Qed.

(** ** A snapshot that arrives during a reconciliation *)

(** The pieces of [bleModelUpdated] read neither [model] nor [bleModel] of
    the device: with other values there they do the same, and the piece
    that ends the body overwrites [model]. *)
Lemma value_loop_overwritten curr old res x b rules :
  forall d,
    value_loop curr old rules res (set_model x (set_bleModel b d))
    = (let '(d', tr, k) := value_loop curr old rules res d in
       (match k with
        | None => set_bleModel b d'
        | Some _ => set_model x (set_bleModel b d')
        end, tr, k)).
Proof.
  induction rules as [|rule rest IH]; intros d; simpl; [reflexivity|].
  change (registered (set_model x (set_bleModel b d))) with (registered d).
  destruct (differs (value rule) (old_value old res rule) && registered d).
  - destruct (lookup (path rule) res); reflexivity.
  - apply IH.
Qed.

Lemma resume_overwritten k r res x b d :
  reconciling k = true ->
  resume k r res (set_model x (set_bleModel b d))
  = (let '(d', tr, next) := resume k r res d in
     (match next with
      | None => set_bleModel b d'
      | Some _ => set_model x (set_bleModel b d')
      end, tr, next)).
Proof.
  intros Hk. destruct k; try discriminate Hk; destruct r; try reflexivity.
  simpl. rewrite value_loop_overwritten.
  destruct (value_loop curr old rest res d) as [[d' tr] [k'|]]; reflexivity.
Qed.

Lemma run_fuel_overwritten
    (R : Type) (resources_of : R -> resources)
    (perform : call -> R -> reply * R) x b n :
  forall k rm d,
    reconciling k = true ->
    run_fuel resources_of perform n k rm (set_model x (set_bleModel b d))
    = (let '((d', tr, more), rm') := run_fuel resources_of perform n k rm d in
       ((match more with
         | None => set_bleModel b d'
         | Some _ => set_model x (set_bleModel b d')
         end, tr, more), rm')).
Proof.
  induction n as [|n IH]; intros k rm d Hk; [reflexivity|].
  simpl. destruct (perform (pending k) rm) as [r rm1].
  rewrite (resume_overwritten _ _ _ _ _ _ Hk).
  destruct (resume k r (resources_of rm1) d) as [[d1 evs] [k'|]] eqn:E;
    [|reflexivity].
  apply (resume_reconciling _ _ _ _ Hk) in E. destruct E as [_ [Hk' _]].
  rewrite (IH _ _ _ Hk').
  destruct (run_fuel resources_of perform n k' rm1 d1)
    as [[[d2 evs'] more] rm2].
  reflexivity.
Qed.

Lemma value_loop_bleModel curr old rules res d :
  bleModel (fst (fst (value_loop curr old rules res d))) = bleModel d.
Proof.
  destruct (value_loop curr old rules res d) as [[d' tr] k] eqn:E.
  apply value_loop_spec in E. destruct E as [_ E]. simpl.
  destruct k as [k'|]; destruct E as [-> _]; reflexivity.
Qed.

Lemma resume_bleModel k r res d :
  bleModel (fst (fst (resume k r res d))) = bleModel d.
Proof.
  destruct k; destruct r; try reflexivity.
  - simpl. destruct v; try reflexivity. destruct b; reflexivity.
  - simpl. pose proof (value_loop_bleModel curr old rest res d) as H.
    destruct (value_loop curr old rest res d) as [[d' tr] k']. exact H.
Qed.

Lemma run_fuel_bleModel
    (R : Type) (resources_of : R -> resources)
    (perform : call -> R -> reply * R) n :
  forall k rm d,
    bleModel (fst (fst (fst (run_fuel resources_of perform n k rm d))))
    = bleModel d.
Proof.
  induction n as [|n IH]; intros k rm d; [reflexivity|].
  simpl. destruct (perform (pending k) rm) as [r rm1].
  pose proof (resume_bleModel k r (resources_of rm1) d) as H.
  destruct (resume k r (resources_of rm1) d) as [[d1 evs] [k'|]];
    [|exact H].
  specialize (IH k' rm1 d1).
  destruct (run_fuel resources_of perform n k' rm1 d1)
    as [[[d2 evs'] more] rm2].
  simpl in *. congruence.
Qed.

Lemma set_bleModel_same d : set_bleModel (bleModel d) d = d.
Proof. destruct d; reflexivity. Qed.

(** A reconciliation never reads the snapshot stored in the device. *)
Lemma bleModelUpdated_ignores_bleModel b m res d :
  let '(dA, trA, kA) := bleModelUpdated m res (set_bleModel b d) in
  let '(dB, trB, kB) := bleModelUpdated m res d in
  trA = trB /\ kA = kB /\ set_bleModel [] dA = set_bleModel [] dB.
Proof.
  unfold bleModelUpdated.
  change (cloudDefinition (set_bleModel b d)) with (cloudDefinition d).
  destruct (generateLwm2mModel (cloudDefinition d) res m) as [curr|];
    [|auto].
  cbv zeta.
  change (modelUpdateInProgress (set_bleModel m (set_bleModel b d)))
    with (modelUpdateInProgress d).
  change (modelUpdateInProgress (set_bleModel m d))
    with (modelUpdateInProgress d).
  destruct (modelUpdateInProgress d); [auto|].
  change (registered
            (set_modelUpdateInProgress true
               (set_bleModel m (set_bleModel b d))))
    with (registered d).
  change (registered (set_modelUpdateInProgress true (set_bleModel m d)))
    with (registered d).
  match goal with |- context [if ?c then _ else _] => destruct c end;
    [auto|].
  change (set_modelUpdateInProgress true (set_bleModel m (set_bleModel b d)))
    with (set_modelUpdateInProgress true (set_bleModel m d)).
  change (model (set_bleModel b d)) with (model d).
  destruct (value_loop curr (model d) curr res
              (set_modelUpdateInProgress true (set_bleModel m d)))
    as [[d' tr] k].
  auto.
Qed.

(** C1.  A snapshot that arrives while the in-flight flag is set is
    dropped: the invocation makes no remote call and leaves no suspended
    body behind, so nothing is queued; the flag stays set.  The
    reconciliation that is in flight goes on as if the snapshot had not
    come, and when it has ended the device differs from the device without
    the dropped snapshot in the stored BLE snapshot only, which no
    reconciliation reads: the data of the dropped snapshot reaches no later
    reconciliation. *)
Theorem snapshot_dropped_while_updating m res d :
  modelUpdateInProgress d = true ->
  calls_of (snd (fst (bleModelUpdated m res d))) = [] /\
  snd (bleModelUpdated m res d) = None /\
  modelUpdateInProgress (fst (fst (bleModelUpdated m res d))) = true /\
  (forall (R : Type) (resources_of : R -> resources)
          (perform : call -> R -> reply * R) k rm,
      reconciling k = true ->
      let d' := fst (fst (bleModelUpdated m res d)) in
      let '((d1, tr1, k1), rm1) := run resources_of perform k rm d in
      run resources_of perform k rm d'
      = ((set_bleModel (bleModel d') d1, tr1, k1), rm1)) /\
  (forall b m2 res2 d2,
      let '(dA, trA, kA) := bleModelUpdated m2 res2 (set_bleModel b d2) in
      let '(dB, trB, kB) := bleModelUpdated m2 res2 d2 in
      trA = trB /\ kA = kB /\ set_bleModel [] dA = set_bleModel [] dB).
Proof.
  intros Hflag.
  assert (Hrun : forall (R : Type) (resources_of : R -> resources)
                        (perform : call -> R -> reply * R) k rm x b,
             reconciling k = true ->
             let '((d1, tr1, k1), rm1) := run resources_of perform k rm d in
             run resources_of perform k rm (set_model x (set_bleModel b d))
             = ((set_bleModel b d1, tr1, k1), rm1)).
  { intros R resources_of perform k rm x b Hk. unfold run.
    rewrite (run_fuel_overwritten _ _ _ _ _ _ _ _ _ Hk).
    pose proof (run_fuel_ends R resources_of perform (cont_size k) k rm d
                              (le_n _)) as Hend.
    destruct (run_fuel resources_of perform (cont_size k) k rm d)
      as [[[d1 tr1] k1] rm1].
    simpl in Hend. subst k1. reflexivity. }
  destruct (generateLwm2mModel (cloudDefinition d) res m) as [curr|] eqn:Hgen.
  - rewrite (bleModelUpdated_dropped _ _ _ _ Hgen Hflag). simpl.
    repeat split; auto.
    + intros R resources_of perform k rm Hk.
      exact (Hrun R resources_of perform k rm curr m Hk).
    + intros b m2 res2 d2. apply bleModelUpdated_ignores_bleModel.
  - rewrite (bleModelUpdated_throws _ _ _ Hgen). simpl.
    repeat split; auto.
    + intros R resources_of perform k rm Hk.
      pose proof (run_fuel_bleModel R resources_of perform (cont_size k)
                                    k rm d) as Hb.
      unfold run.
      destruct (run_fuel resources_of perform (cont_size k) k rm d)
        as [[[d1 tr1] k1] rm1].
      simpl in Hb. rewrite <- Hb. now rewrite set_bleModel_same.
    + intros b m2 res2 d2. apply bleModelUpdated_ignores_bleModel.
Qed.

(** A second snapshot arrives while the schema of the first is pushed. *)
Lemma snapshot_dropped_while_updating_witness :
  let d := fst (fst (bleModelUpdated snapshot_21 []
                                     (registered_device temp_definition))) in
  calls_of (snd (fst (bleModelUpdated snapshot_22 [] d))) = [] /\
  snd (bleModelUpdated snapshot_22 [] d) = None.
Proof.
  intros d.
  destruct (snapshot_dropped_while_updating snapshot_22 [] d eq_refl)
    as (Hcalls & Hnone & _).
  split; [exact Hcalls | exact Hnone].
Defined.

(** ** The value loop *)

Lemma value_loop_trace curr old rules res d :
  forall d' tr k,
    value_loop curr old rules res d = (d', tr, k) ->
    match k with
    | None =>
        tr = [] \/
        exists rule,
          tr = [EvLog (LogUpdateValue (path rule) (value rule));
                EvLog LogModelUpdateFailed]
    | Some k' =>
        exists rule rest,
          k' = KSetValue curr old rule rest /\
          tr = [EvLog (LogUpdateValue (path rule) (value rule));
                EvCall (setValue_call rule)]
    end.
Proof.
  induction rules as [|rule rest IH]; simpl; intros d' tr k H.
  - inversion H; subst. auto.
  - destruct (differs (value rule) (old_value old res rule) && registered d).
    + destruct (lookup (path rule) res); inversion H; subst.
      * exists rule, rest. auto.
      * right. exists rule. reflexivity.
    + eapply IH. exact H.
Qed.

Lemma subseq_none {A : Type} (l : list A) : subseq [] l.
Proof. induction l; constructor; assumption. Qed.

Lemma subseq_after {A : Type} (skipped s l : list A) :
  subseq s l -> subseq s (skipped ++ l).
Proof. intros H. induction skipped; simpl; [|constructor]; assumption. Qed.

Lemma run_fuel_values
    (R : Type) (resources_of : R -> resources)
    (perform : call -> R -> reply * R) curr old n :
  forall rule rest rm d,
    let '((d', tr, more), _) :=
      run_fuel resources_of perform n (KSetValue curr old rule rest) rm d in
    (exists sub, subseq sub rest /\ calls_of tr = map setValue_call sub) /\
    aborts_on_rejection tr /\
    (more = None ->
     awaited (EvCall (setValue_call rule) :: tr) /\
     modelUpdateInProgress d' = false /\ model d' = curr).
Proof.
  induction n as [|n IH]; intros rule rest rm d.
  - simpl. split; [exists []; split; [apply subseq_none | reflexivity]|].
    split; [exact I | discriminate].
  - simpl. destruct (perform (CSetValue (path rule) (value rule)) rm)
      as [[v|] rm1]; simpl.
    + destruct (value_loop curr old rest (resources_of rm1) d)
        as [[d1 evs] next] eqn:E.
      pose proof (value_loop_trace _ _ _ _ _ _ _ _ E) as Htr.
      pose proof (value_loop_spec _ _ _ _ _ _ _ _ E) as [_ Hsp].
      destruct next as [k'|].
      * destruct Htr as (rule' & rest' & -> & ->).
        destruct Hsp as [-> (r0 & rest0 & Hk & _ & _ & skipped & Hrest)].
        injection Hk as <- <-.
        specialize (IH rule' rest' rm1 d).
        destruct (run_fuel resources_of perform n
                    (KSetValue curr old rule' rest') rm1 d)
          as [[[d2 evs'] more] rm2].
        destruct IH as ((sub & Hsub & Hcalls) & Habort & Hend).
        split; [|split].
        -- exists (rule' :: sub). split.
           ++ rewrite Hrest. apply subseq_after. now constructor.
           ++ simpl. now rewrite Hcalls.
        -- exact Habort.
        -- intros Hmore. destruct (Hend Hmore) as (Haw & Hf & Hm).
           simpl in Haw. simpl. tauto.
      * destruct Hsp as [-> _].
        split; [exists []; split; [apply subseq_none|]|].
        -- destruct Htr as [-> | (rule' & ->)]; reflexivity.
        -- destruct Htr as [-> | (rule' & ->)]; simpl; auto.
    + split; [exists []; split; [apply subseq_none | reflexivity]|].
      simpl. auto.
Qed.




(** ** Reconciling the same snapshot again *)

Lemma lookup_set_value p v q res :
  lookup q (set_value p v res)
  = if String.eqb p q
    then option_map
           (fun r => mkDescriptor (path r) (valueType r) (operation r) v
                                  (observable r))
           (lookup q res)
    else lookup q res.
Proof.
  induction res as [|[k r] res IH]; simpl.
  - destruct (String.eqb p q); reflexivity.
  - destruct (String.eqb_spec p k) as [->|Hpk]; simpl.
    + destruct (String.eqb_spec q k) as [->|Hqk].
      * rewrite String.eqb_refl. reflexivity.
      * exact IH.
    + destruct (String.eqb_spec q k) as [->|Hqk].
      * destruct (String.eqb_spec p k); [contradiction | reflexivity].
      * exact IH.
Qed.

Lemma set_value_same_but_value p v res :
  Forall2 same_but_value (values (set_value p v res)) (values res).
Proof.
  induction res as [|[k r] res IH]; simpl; constructor; [|exact IH].
  destruct (String.eqb p k); simpl; repeat split; reflexivity.
Qed.

Lemma getSchema_set_value p v res :
  getSchema (values (set_value p v res)) = getSchema (values res).
Proof. apply getSchema_value_irrelevant, set_value_same_but_value. Qed.

Lemma values_expose (m : descriptor_model) : values (expose m) = m.
Proof.
  unfold values, expose. rewrite map_map. simpl. apply map_id.
Qed.

(** Setting a resource to the value its own descriptor carries changes no
    generated descriptor. *)
Lemma rule_for_set_own rd rk wk res sm k0 k :
  rule_for rd rk wk
           (set_value (String "/" k0) (value (rule_for rd rk wk res sm k0)) res)
           sm k
  = rule_for rd rk wk res sm k.
Proof.
  unfold rule_for at 1 3. cbv zeta. f_equal.
  destruct (is_empty (read_value rd rk sm k)) eqn:Hv; [|reflexivity].
  change ("/" ++ k)%string with (String "/" k).
  rewrite lookup_set_value.
  destruct (String.eqb_spec (String "/" k0) (String "/" k)) as [E|_];
    [|reflexivity].
  apply slash_inj in E. subst k0.
  destruct (lookup (String "/" k) res) as [x|] eqn:Hx; [|reflexivity].
  simpl. unfold rule_for. cbv zeta. cbn [value].
  change ("/" ++ k)%string with (String "/" k). now rewrite Hv, Hx.
Qed.

Lemma generated_set_own rd rk wk sm ks res r :
  In r (map (rule_for rd rk wk res sm) ks) ->
  map (rule_for rd rk wk (set_value (path r) (value r) res) sm) ks
  = map (rule_for rd rk wk res sm) ks.
Proof.
  intros Hin. apply in_map_iff in Hin. destruct Hin as (k0 & <- & _).
  apply map_ext. intros k. rewrite rule_for_path. apply rule_for_set_own.
Qed.

Lemma lookup_expose rd rk wk res sm ks k :
  In k ks ->
  lookup (String "/" k) (expose (map (rule_for rd rk wk res sm) ks))
  = Some (rule_for rd rk wk res sm k).
Proof.
  induction ks as [|a ks IH]; intros Hin; [contradiction|].
  simpl. destruct (String.eqb_spec k a) as [->|Hne]; [reflexivity|].
  destruct Hin as [->|Hin]; [contradiction | now apply IH].
Qed.

(** Exposing the generated list changes no generated descriptor. *)
Lemma generated_exposed rd rk wk sm ks res :
  map (rule_for rd rk wk (expose (map (rule_for rd rk wk res sm) ks)) sm) ks
  = map (rule_for rd rk wk res sm) ks.
Proof.
  apply map_ext_in. intros k Hin.
  unfold rule_for at 1 3. cbv zeta. f_equal.
  destruct (is_empty (read_value rd rk sm k)) eqn:Hv; [|reflexivity].
  change ("/" ++ k)%string with (String "/" k).
  rewrite (lookup_expose _ _ _ _ _ _ _ Hin).
  unfold rule_for. cbv zeta. cbn [value].
  change ("/" ++ k)%string with (String "/" k). now rewrite Hv.
Qed.

Lemma find_own (l : descriptor_model) (r : descriptor) :
  NoDup (map path l) -> In r l ->
  find (fun x => String.eqb (path x) (path r)) l = Some r.
Proof.
  induction l as [|a l IH]; simpl; intros Hnd Hin; [contradiction|].
  inversion Hnd as [|? ? Hnotin Hnd']; subst.
  destruct Hin as [->|Hin]; [now rewrite String.eqb_refl|].
  destruct (String.eqb_spec (path a) (path r)) as [E|_]; [|now apply IH].
  exfalso. apply Hnotin. rewrite E. now apply in_map.
Qed.

(** Against the list it has just stored the value loop finds nothing to
    push. *)
Lemma value_loop_silent curr res rules :
  NoDup (map path curr) -> incl rules curr ->
  forall d,
    value_loop curr curr rules res d
    = (set_model curr (set_modelUpdateInProgress false d), [], None).
Proof.
  intros Hnd. induction rules as [|rule rest IH]; intros Hincl d;
    [reflexivity|].
  simpl. unfold old_value.
  rewrite (find_own curr rule Hnd (Hincl rule (or_introl eq_refl))).
  simpl. rewrite String.eqb_refl. simpl.
  apply IH. intros x Hx. apply Hincl. now right.
Qed.

(** The pieces never replace the cloud definition. *)
Lemma value_loop_cloudDefinition curr old rules res d :
  cloudDefinition (fst (fst (value_loop curr old rules res d)))
  = cloudDefinition d.
Proof.
  destruct (value_loop curr old rules res d) as [[d' tr] k] eqn:E.
  apply value_loop_spec in E. destruct E as [_ E]. simpl.
  destruct k as [k'|]; destruct E as [-> _]; reflexivity.
Qed.

Lemma resume_cloudDefinition k r res d :
  cloudDefinition (fst (fst (resume k r res d))) = cloudDefinition d.
Proof.
  destruct k; destruct r; try reflexivity.
  - simpl. destruct v; try reflexivity. destruct b; reflexivity.
  - simpl. pose proof (value_loop_cloudDefinition curr old rest res d) as H.
    destruct (value_loop curr old rest res d) as [[d' tr] k']. exact H.
Qed.

Lemma generate_Some definition res m curr :
  generateLwm2mModel definition res m = Some curr ->
  exists rd wr, read definition = Some rd /\ write definition = Some wr.
Proof.
  unfold generateLwm2mModel.
  destruct (read definition) as [rd|]; [|discriminate].
  destruct (write definition) as [wr|]; [|discriminate].
  intros _. exists rd, wr. auto.
Qed.

Section Again.

Variable R : Type.
Variable resources_of : R -> resources.
Variable perform : call -> R -> reply * R.
Hypothesis remote_faithful : faithful resources_of perform.

Lemma run_fuel_cloudDefinition n :
  forall k rm d,
    cloudDefinition
      (fst (fst (fst (run_fuel resources_of perform n k rm d))))
    = cloudDefinition d.
Proof.
  induction n as [|n IH]; intros k rm d; [reflexivity|].
  simpl. destruct (perform (pending k) rm) as [r rm1].
  pose proof (resume_cloudDefinition k r (resources_of rm1) d) as H.
  destruct (resume k r (resources_of rm1) d) as [[d1 evs] [k'|]];
    [|exact H].
  specialize (IH k' rm1 d1).
  destruct (run_fuel resources_of perform n k' rm1 d1)
    as [[[d2 evs'] more] rm2].
  simpl in *. congruence.
Qed.

Variable rd : table reader.
Variables rk wk ks : list string.
Variable sm : simplified.

(** While the values of a generated list are pushed to a faithful remote,
    the list generated from what the remote exposes stays the same, and so
    does the fingerprint of what it exposes. *)
Lemma run_fuel_values_generated curr old n :
  forall rule rest rm d,
    In rule curr -> incl rest curr ->
    generated rd rk wk ks sm (resources_of rm) = curr ->
    let '(_, rm') :=
      run_fuel resources_of perform n (KSetValue curr old rule rest) rm d in
    generated rd rk wk ks sm (resources_of rm') = curr /\
    getSchema (values (resources_of rm'))
    = getSchema (values (resources_of rm)).
Proof.
  induction n as [|n IH]; intros rule rest rm d Hrule Hrest Hgen;
    [simpl; auto|].
  simpl. pose proof (remote_faithful (CSetValue (path rule) (value rule)) rm)
    as Hf.
  destruct (perform (CSetValue (path rule) (value rule)) rm) as [[v|] rm1];
    simpl in Hf.
  - assert (Hgen1 : generated rd rk wk ks sm (resources_of rm1) = curr).
    { rewrite Hf. unfold generated. rewrite generated_set_own; [exact Hgen|].
      unfold generated in Hgen. now rewrite Hgen. }
    assert (Hsch1 : getSchema (values (resources_of rm1))
                    = getSchema (values (resources_of rm))).
    { rewrite Hf. apply getSchema_set_value. }
    simpl.
    destruct (value_loop curr old rest (resources_of rm1) d)
      as [[d1 evs] next] eqn:E.
    apply value_loop_spec in E. destruct E as [_ Hsp].
    destruct next as [k'|]; [|auto].
    destruct Hsp as [_ (rule' & rest' & -> & _ & _ & skipped & Hsk)].
    assert (Hrule' : In rule' curr).
    { apply Hrest. rewrite Hsk. apply in_or_app. right. now left. }
    assert (Hrest' : incl rest' curr).
    { intros x Hx. apply Hrest. rewrite Hsk. apply in_or_app. right.
      now right. }
    specialize (IH rule' rest' rm1 d1 Hrule' Hrest' Hgen1).
    destruct (run_fuel resources_of perform n
                (KSetValue curr old rule' rest') rm1 d1)
      as [[[d2 evs'] more] rm2].
    destruct IH as [Hg Hs]. split; [exact Hg | congruence].
  - simpl. rewrite Hf. auto.
Qed.

(** The schema-change sequence against a faithful remote: when the push of
    the schema is not rejected, the remote exposes the new list. *)
Lemma run_schema_change_faithful curr rm d :
  let '((d', tr, k), rm') :=
    run resources_of perform (KSetResourceModel curr) rm d in
  d' = set_model curr (set_modelUpdateInProgress false d) /\
  k = None /\
  (~ In (EvSettled (CSetResourceModel curr) Rejected) tr ->
   resources_of rm' = expose curr).
Proof.
  unfold run. simpl.
  pose proof (remote_faithful (CSetResourceModel curr) rm) as H1.
  destruct (perform (CSetResourceModel curr) rm) as [[v1|] rm1];
    simpl in H1; simpl.
  - pose proof (remote_faithful CDeregister rm1) as H2.
    destruct (perform CDeregister rm1) as [[v2|] rm2]; simpl in H2; simpl.
    + pose proof (remote_faithful CRegister rm2) as H3.
      destruct (perform CRegister rm2) as [[v3|] rm3]; simpl in H3; simpl;
        repeat split; intros _; congruence.
    + repeat split. intros _. congruence.
  - repeat split. intros H. exfalso. apply H. now left.
Qed.

End Again.

(** C4, amended.  With a remote service that is faithful, after a
    reconciliation of a snapshot in which no setResourceModel call was
    rejected, reconciling the same snapshot again makes no remote call. *)
Theorem repeated_snapshot_is_silent
    (R : Type) (resources_of : R -> resources)
    (perform : call -> R -> reply * R)
    (m : snapshot) (rm : R) (d : device) :
  faithful resources_of perform ->
  let '((d1, tr1, _), rm1) := reconcile resources_of perform m rm d in
  (forall c, ~ In (EvSettled (CSetResourceModel c) Rejected) tr1) ->
  calls_of (snd (fst (fst (reconcile resources_of perform m rm1 d1)))) = [].
Proof.
  intros Hfaith.
  destruct (generateLwm2mModel (cloudDefinition d) (resources_of rm) m)
    as [curr|] eqn:Hgen.
  2: { unfold reconcile at 1. rewrite (bleModelUpdated_throws _ _ _ Hgen).
       simpl. intros _. unfold reconcile.
       now rewrite (bleModelUpdated_throws _ _ _ Hgen). }
  destruct (generate_Some _ _ _ _ Hgen) as (rd & wr & Hrd & Hwr).
  pose proof (fun res => generate_tables (cloudDefinition d) res m rd wr
                                         Hrd Hwr) as Htab.
  pose proof (generated_paths_NoDup _ _ _ _ Hgen) as Hnd.
  rewrite Htab in Hgen. injection Hgen as Hcurr.
  (* the second reconciliation, once it is known what it starts from *)
  assert (Hsecond :
            forall rm1 d1,
              cloudDefinition d1 = cloudDefinition d ->
              model d1 = curr ->
              generateLwm2mModel (cloudDefinition d) (resources_of rm1) m
              = Some curr ->
              modelUpdateInProgress d1 = true \/
              registered d1 = false \/
              getSchema curr = getSchema (values (resources_of rm1)) ->
              calls_of
                (snd (fst (fst (reconcile resources_of perform m rm1 d1))))
              = []).
  { intros rm1 d1 Hdef Hmodel Hgen1 Hcase. rewrite <- Hdef in Hgen1.
    unfold reconcile.
    destruct (modelUpdateInProgress d1) eqn:Hflag1.
    - now rewrite (bleModelUpdated_dropped _ _ _ _ Hgen1 Hflag1).
    - destruct Hcase as [Hc | Hc]; [discriminate Hc|].
      rewrite (bleModelUpdated_values _ _ _ _ Hgen1 Hflag1 Hc).
      rewrite Hmodel.
      rewrite (value_loop_silent curr _ curr Hnd (incl_refl curr)).
      reflexivity. }
  assert (Hgen0 : generateLwm2mModel (cloudDefinition d) (resources_of rm) m
                  = Some curr) by now rewrite Htab, Hcurr.
  (* the first reconciliation, when it goes through the value loop *)
  assert (Hvalues :
            modelUpdateInProgress d = false ->
            registered d = false \/
            getSchema curr = getSchema (values (resources_of rm)) ->
            let '((d1, tr1, _), rm1) :=
              reconcile resources_of perform m rm d in
            (forall c, ~ In (EvSettled (CSetResourceModel c) Rejected) tr1) ->
            calls_of
              (snd (fst (fst (reconcile resources_of perform m rm1 d1))))
            = []).
  { intros Hflag Hcase. unfold reconcile at 1.
    rewrite (bleModelUpdated_values _ _ _ _ Hgen0 Hflag Hcase).
    set (d0 := set_modelUpdateInProgress true (set_bleModel m d)).
    destruct (value_loop curr (model d) curr (resources_of rm) d0)
      as [[dA evs] next] eqn:E.
    apply value_loop_spec in E. destruct E as [_ Hsp].
    destruct next as [k'|].
    - destruct Hsp as [-> (rule & rest & -> & _ & _ & skipped & Hsk)].
      unfold settle, run.
      set (k := KSetValue curr (model d) rule rest).
      assert (Hrule : In rule curr).
      { rewrite Hsk. apply in_or_app. right. now left. }
      assert (Hrest : incl rest curr).
      { intros x Hx. rewrite Hsk. apply in_or_app. right. now right. }
      pose proof (run_fuel_values R resources_of perform curr (model d)
                    (cont_size k) rule rest rm d0) as Hfin.
      pose proof (run_fuel_ends R resources_of perform (cont_size k) k rm d0
                    (le_n _)) as Hend.
      pose proof (run_fuel_registered R resources_of perform (cont_size k)
                    k rm d0 eq_refl) as Hreg1.
      pose proof (run_fuel_cloudDefinition R resources_of perform
                    (cont_size k) k rm d0) as Hdef1.
      pose proof (run_fuel_values_generated R resources_of perform Hfaith
                    rd (keys rd) (keys wr) (dedupe (keys rd ++ keys wr))
                    (createSimplifiedModel m) curr (model d) (cont_size k)
                    rule rest rm d0 Hrule Hrest Hcurr) as Hinv.
      subst k.
      destruct (run_fuel resources_of perform
                  (cont_size (KSetValue curr (model d) rule rest))
                  (KSetValue curr (model d) rule rest) rm d0)
        as [[[d1 tr1] k1] rm1].
      simpl in Hend, Hreg1, Hdef1. subst k1.
      destruct Hfin as (_ & _ & Hfin). destruct (Hfin eq_refl) as (_ & _ & Hm).
      destruct Hinv as [Hg Hs].
      intros _. apply Hsecond; auto.
      + rewrite Htab. now apply f_equal.
      + right. destruct Hcase as [Hc | Hc]; [left | right].
        * rewrite Hreg1. exact Hc.
        * now rewrite Hs.
    - destruct Hsp as [-> _]. simpl. intros _. apply Hsecond; auto. }
  destruct (modelUpdateInProgress d) eqn:Hflag.
  - (* the first snapshot is dropped itself *)
    unfold reconcile at 1.
    rewrite (bleModelUpdated_dropped m (resources_of rm) d curr
               ltac:(now rewrite Htab, Hcurr) Hflag).
    simpl. intros _. apply Hsecond; auto.
  - destruct (registered d) eqn:Hreg.
    + destruct (String.eqb_spec (getSchema curr)
                                (getSchema (values (resources_of rm))))
        as [Hsch | Hsch].
      * (* values *)
        apply Hvalues; auto.
      * (* schema change *)
        unfold reconcile at 1.
        rewrite (bleModelUpdated_schema_change m (resources_of rm) d curr
                   ltac:(now rewrite Htab, Hcurr) Hflag Hreg Hsch).
        unfold settle.
        pose proof (run_schema_change_faithful R resources_of perform Hfaith
                      curr rm
                      (set_modelUpdateInProgress true (set_bleModel m d)))
          as Hrun.
        destruct (run resources_of perform (KSetResourceModel curr) rm
                      (set_modelUpdateInProgress true (set_bleModel m d)))
          as [[[d1 tr1] k1] rm1].
        destruct Hrun as (-> & -> & Hexp).
        intros Hno. apply Hsecond; auto.
        -- assert (Hrm1 : resources_of rm1 = expose curr).
           { apply Hexp. intros Hin. apply (Hno curr).
             apply in_or_app. now right. }
           rewrite Htab, Hrm1, <- Hcurr. apply f_equal, generated_exposed.
        -- right. right.
           rewrite Hexp; [now rewrite values_expose|].
           intros Hin. apply (Hno curr). apply in_or_app. now right.
    + (* values, not registered *)
      apply Hvalues; auto.
Qed.

Lemma mirror_faithful : faithful exposed mirror_perform.
Proof.
  intros c [ex [|[] s]]; destruct c; reflexivity.
Qed.

Lemma repeated_snapshot_is_silent_witness :
  let '((d1, _, _), rm1) :=
    reconcile exposed mirror_perform snapshot_21 (mkMirror [] [])
              (registered_device temp_definition) in
  calls_of (snd (fst (fst (reconcile exposed mirror_perform snapshot_21
                                     rm1 d1))))
  = [].
Proof.
  pose proof (repeated_snapshot_is_silent mirror exposed mirror_perform
                snapshot_21 (mkMirror [] [])
                (registered_device temp_definition) mirror_faithful) as H.
  destruct (reconcile exposed mirror_perform snapshot_21 (mkMirror [] [])
              (registered_device temp_definition))
    as [[[d1 tr1] k1] rm1] eqn:E.
  apply H. intros c Hin.
  vm_compute in E. injection E as _ <- _ _.
  simpl in Hin.
  repeat (destruct Hin as [Hin|Hin]; [discriminate Hin|]). exact Hin.
Defined.

(** C4, as it is written.  The remote service rejects the push of the
    schema: the reconciliation ends, with the flag cleared and the list
    stored, and the same snapshot reconciled again pushes the schema again.
    And a remote service that resolves every call but does not expose what
    it was sent is pushed the schema at every snapshot. *)
Lemma rejected_schema_push_is_repeated :
  (let '((d1, tr1, k1), rm1) :=
     reconcile exposed mirror_perform snapshot_21 (mkMirror [] [false])
               (registered_device temp_definition) in
   k1 = None /\
   modelUpdateInProgress d1 = false /\
   model d1 = [temp_descriptor "21"] /\
   calls_of tr1 = [CSetResourceModel [temp_descriptor "21"]] /\
   calls_of (snd (fst (fst (reconcile exposed mirror_perform snapshot_21
                                      rm1 d1))))
   = [CSetResourceModel [temp_descriptor "21"]; CDeregister; CRegister]) /\
  (let '((d1, tr1, k1), rm1) :=
     reconcile deaf_resources deaf_perform snapshot_21 tt
               (registered_device temp_definition) in
   k1 = None /\
   modelUpdateInProgress d1 = false /\
   calls_of (snd (fst (fst (reconcile deaf_resources deaf_perform snapshot_21
                                      rm1 d1))))
   = [CSetResourceModel [temp_descriptor "21"]; CDeregister; CRegister]).
Proof. vm_compute. repeat split. Qed.

(** * Further properties of the code *)

(** ** The connectivity listener and the constructor *)

(** X1.  When the state becomes connected, a device that is registered
    calls nothing; a device that is not calls register once, and is
    registered afterwards exactly when the call resolved.  A second
    connected event then calls register again only if the device is still
    not registered. *)
Theorem connect_registers_once
    (R : Type) (resources_of : R -> resources)
    (perform : call -> R -> reply * R)
    (error error' : jsval) (rm : R) (d : device) :
  let '((d1, tr, k), rm1) :=
    settle resources_of perform (updateState "connected" error d) rm in
  k = None /\
  calls_of tr = (if registered d then [] else [CRegister]) /\
  registered d1
  = (if registered d then true
     else match fst (perform CRegister rm) with
          | Resolved _ => true
          | Rejected => false
          end) /\
  calls_of (snd (fst (updateState "connected" error' d1)))
  = (if registered d1 then [] else [CRegister]).
Proof.
  unfold updateState, statechange, settle, run. simpl.
  destruct (registered d) eqn:Hreg; simpl.
  - rewrite Hreg. auto.
  - destruct (perform CRegister rm) as [[v|] rm1]; simpl; auto.
    rewrite Hreg. auto.
Qed.

(** X2.  The constructor leaves a device that is disconnected, not
    registered, not updating and without a model, and asks the remote
    service for the registration status; it calls deregister, once, exactly
    when the answer is the boolean true, and whatever the calls do the
    device stays as the constructor left it. *)
Theorem constructor_checks_registration
    (R : Type) (resources_of : R -> resources)
    (perform : call -> R -> reply * R)
    (addr : string) (definition : cloud_definition) (rm : R) :
  let '((d, tr, k), _) :=
    settle resources_of perform (BtDeviceLinkDevice addr definition) rm in
  k = None /\
  d = mkDevice addr "disconnected" JNull [] definition false [] false /\
  calls_of tr
  = match fst (perform CGetRegistrationStatus rm) with
    | Resolved (JBool true) => [CGetRegistrationStatus; CDeregister]
    | _ => [CGetRegistrationStatus]
    end.
Proof.
  unfold BtDeviceLinkDevice, settle, run. simpl.
  destruct (perform CGetRegistrationStatus rm) as [[v|] rm1]; simpl; auto.
  destruct v as [| |[]| | | |]; simpl; auto.
  destruct (perform CDeregister rm1) as [[v2|] rm2]; simpl; auto.
Qed.

(** X3.  A connectivity change, whatever the state it reports and however
    the call it makes settles, stores the state and the error and leaves
    the model, the in-flight flag, the BLE snapshot and the cloud definition
    alone; a state other than connected and disconnected makes no call and
    leaves the registered flag alone as well. *)
Theorem connectivity_keeps_reconciliation_state
    (R : Type) (resources_of : R -> resources)
    (perform : call -> R -> reply * R)
    (st : string) (error : jsval) (rm : R) (d : device) :
  let '((d', tr, k), _) :=
    settle resources_of perform (updateState st error d) rm in
  k = None /\
  state d' = st /\ stateError d' = error /\
  model d' = model d /\
  modelUpdateInProgress d' = modelUpdateInProgress d /\
  bleModel d' = bleModel d /\
  cloudDefinition d' = cloudDefinition d /\
  address d' = address d /\
  (st <> "connected" -> st <> "disconnected" ->
   calls_of tr = [] /\ registered d' = registered d).
Proof.
  unfold updateState, statechange, settle, run.
  destruct (String.eqb_spec st "connected") as [->|Hc].
  - simpl. destruct (registered d); simpl.
    + repeat split; auto; intros; exfalso; congruence.
    + destruct (perform CRegister rm) as [[v|] rm1]; simpl;
        repeat split; auto; intros; exfalso; congruence.
  - destruct (String.eqb_spec st "disconnected") as [->|Hd].
    + simpl. destruct (registered d); simpl.
      * destruct (perform CDeregister rm) as [[v|] rm1]; simpl;
          repeat split; auto; intros; exfalso; congruence.
      * repeat split; auto; intros; exfalso; congruence.
    + simpl. repeat split; auto.
Qed.

Lemma connectivity_keeps_reconciliation_state_witness :
  let '((d', tr, _), _) :=
    settle exposed mirror_perform
           (updateState "connecting" JUndefined
                        (registered_device temp_definition))
           (mkMirror [] []) in
  calls_of tr = [] /\ registered d' = true.
Proof.
  pose proof (connectivity_keeps_reconciliation_state mirror exposed
                mirror_perform "connecting" JUndefined (mkMirror [] [])
                (registered_device temp_definition)) as H.
  destruct (settle exposed mirror_perform
              (updateState "connecting" JUndefined
                           (registered_device temp_definition))
              (mkMirror [] []))
    as [[[d' tr] k] rm'].
  apply H; discriminate.
Defined.

(** ** What every reconciliation leaves behind *)

Lemma resume_target k r res d :
  reconciling k = true ->
  forall d' tr next,
    resume k r res d = (d', tr, next) ->
    match next with
    | Some k' => target k' = target k /\
                 modelUpdateInProgress d' = modelUpdateInProgress d
    | None => model d' = target k /\ modelUpdateInProgress d' = false
    end.
Proof.
  intros Hk d' tr next H.
  destruct k; try discriminate Hk; destruct r; simpl in H;
    try (inversion H; subst; simpl; auto; fail).
  destruct (value_loop curr old rest res d) as [[d1 tr1] k1] eqn:E.
  inversion H; subst. apply value_loop_spec in E. destruct E as [_ Hn].
  destruct next as [k'|].
  - destruct Hn as [-> (r0 & rest0 & -> & _)]. auto.
  - destruct Hn as [-> _]. auto.
Qed.

Lemma run_fuel_target
    (R : Type) (resources_of : R -> resources)
    (perform : call -> R -> reply * R) n :
  forall k rm d,
    reconciling k = true ->
    let '((d', _, more), _) := run_fuel resources_of perform n k rm d in
    more = None -> model d' = target k /\ modelUpdateInProgress d' = false.
Proof.
  induction n as [|n IH]; intros k rm d Hk; [discriminate|].
  simpl. destruct (perform (pending k) rm) as [r rm1].
  destruct (resume k r (resources_of rm1) d) as [[d1 evs] next] eqn:E.
  pose proof (resume_target _ _ _ _ Hk _ _ _ E) as Ht.
  apply (resume_reconciling _ _ _ _ Hk) in E. destruct E as [_ Hn].
  destruct next as [k'|]; [|intros _; exact Ht].
  destruct Hn as [Hk' _]. destruct Ht as [Ht _].
  specialize (IH k' rm1 d1 Hk').
  destruct (run_fuel resources_of perform n k' rm1 d1)
    as [[[d2 evs'] more] rm2].
  rewrite Ht in IH. exact IH.
Qed.

(** The piece that starts a reconciliation which is not dropped. *)
Lemma bleModelUpdated_started m res d curr :
  generateLwm2mModel (cloudDefinition d) res m = Some curr ->
  modelUpdateInProgress d = false ->
  forall d1 evs next,
    bleModelUpdated m res d = (d1, evs, next) ->
    bleModel d1 = m /\
    cloudDefinition d1 = cloudDefinition d /\
    registered d1 = registered d /\
    match next with
    | None => model d1 = curr /\ modelUpdateInProgress d1 = false
    | Some k => reconciling k = true /\ target k = curr
    end.
Proof.
  intros Hgen Hflag d1 evs next H.
  destruct (registered d) eqn:Hreg.
  - destruct (String.eqb_spec (getSchema curr) (getSchema (values res)))
      as [Hs|Hs].
    + rewrite (bleModelUpdated_values _ _ _ _ Hgen Hflag (or_intror Hs)) in H.
      destruct (value_loop curr (model d) curr res
                  (set_modelUpdateInProgress true (set_bleModel m d)))
        as [[d' tr] k] eqn:E.
      inversion H; subst. apply value_loop_spec in E.
      destruct E as [Hr Hn]. destruct next as [k'|].
      * destruct Hn as [-> (r0 & rest0 & -> & _)]. simpl. auto.
      * destruct Hn as [-> _]. simpl. auto.
    + rewrite (bleModelUpdated_schema_change _ _ _ _ Hgen Hflag Hreg Hs) in H.
      inversion H; subst. simpl. auto.
  - rewrite (bleModelUpdated_values _ _ _ _ Hgen Hflag (or_introl Hreg)) in H.
    destruct (value_loop curr (model d) curr res
                (set_modelUpdateInProgress true (set_bleModel m d)))
      as [[d' tr] k] eqn:E.
    inversion H; subst. apply value_loop_spec in E.
    destruct E as [Hr Hn]. destruct next as [k'|].
    + destruct Hn as [-> (r0 & rest0 & -> & _)]. simpl. auto.
    + destruct Hn as [-> _]. simpl. auto.
Qed.

Lemma reconcile_stores
    (R : Type) (resources_of : R -> resources)
    (perform : call -> R -> reply * R)
    (m : snapshot) (rm : R) (d : device) (curr : descriptor_model) :
  generateLwm2mModel (cloudDefinition d) (resources_of rm) m = Some curr ->
  let '((d', tr, k), _) := reconcile resources_of perform m rm d in
  k = None /\
  model d' = curr /\
  bleModel d' = m /\
  modelUpdateInProgress d' = modelUpdateInProgress d /\
  cloudDefinition d' = cloudDefinition d.
Proof.
  intros Hgen. unfold reconcile.
  destruct (modelUpdateInProgress d) eqn:Hflag.
  - rewrite (bleModelUpdated_dropped _ _ _ _ Hgen Hflag). simpl. auto.
  - destruct (bleModelUpdated m (resources_of rm) d) as [[d1 evs] next] eqn:E.
    destruct (bleModelUpdated_started _ _ _ _ Hgen Hflag _ _ _ E)
      as (Hb & Hc & _ & Hn).
    destruct next as [k|]; simpl.
    + destruct Hn as [Hk Ht]. unfold run.
      pose proof (run_fuel_target R resources_of perform (cont_size k)
                    k rm d1 Hk) as Hend.
      pose proof (run_fuel_ends R resources_of perform (cont_size k)
                    k rm d1 (le_n _)) as Hnone.
      pose proof (run_fuel_bleModel R resources_of perform (cont_size k)
                    k rm d1) as Hble.
      pose proof (run_fuel_cloudDefinition R resources_of perform
                    (cont_size k) k rm d1) as Hdef.
      destruct (run_fuel resources_of perform (cont_size k) k rm d1)
        as [[[d2 evs'] more] rm2].
      simpl in *. subst more. destruct (Hend eq_refl) as [Hm Hf].
      repeat split; congruence.
    + destruct Hn as [Hm Hf]. repeat split; auto.
Qed.

(** X4.  When the descriptor list of a snapshot can be built and every
    remote call the update awaits settles, resolved or rejected, the update
    ends: the list is stored as the model, the snapshot is stored as the BLE
    model, and the in-flight flag is as it was before the update, cleared if
    the update had set it.  An awaited call that never settles leaves the
    body suspended; [reconcile] does not describe that run. *)
Theorem reconciliation_stores_model_and_releases
    (R : Type) (resources_of : R -> resources)
    (perform : call -> R -> reply * R)
    (m : snapshot) (rm : R) (d : device) (curr : descriptor_model) :
  generateLwm2mModel (cloudDefinition d) (resources_of rm) m = Some curr ->
  let '((d', tr, k), _) := reconcile resources_of perform m rm d in
  k = None /\
  model d' = curr /\
  bleModel d' = m /\
  modelUpdateInProgress d' = modelUpdateInProgress d /\
  cloudDefinition d' = cloudDefinition d.
Proof. apply reconcile_stores. Qed.

Lemma reconciliation_stores_model_and_releases_witness :
  let '((d', tr, k), _) :=
    reconcile exposed mirror_perform climate_snapshot
              (mkMirror climate_resources [false])
              (registered_device climate_definition) in
  k = None /\
  model d' = [mkDescriptor "/temp" "dynamic" ["GET"] "21" (Some true);
              mkDescriptor "/hum" "dynamic" ["GET"] "40" (Some true)] /\
  bleModel d' = climate_snapshot /\
  modelUpdateInProgress d' = false /\
  cloudDefinition d' = climate_definition.
Proof.
  apply (reconciliation_stores_model_and_releases mirror exposed
           mirror_perform climate_snapshot
           (mkMirror climate_resources [false])
           (registered_device climate_definition)).
  reflexivity.
Defined.

Lemma value_loop_unregistered curr old res rules :
  forall d,
    registered d = false ->
    value_loop curr old rules res d
    = (set_model curr (set_modelUpdateInProgress false d), [], None).
Proof.
  induction rules as [|rule rest IH]; intros d Hreg; simpl; [reflexivity|].
  rewrite Hreg, andb_false_r. now apply IH.
Qed.

(** X5.  A device that is not registered makes no remote call when a
    snapshot arrives, whatever the snapshot and whatever the remote service
    exposes. *)
Theorem unregistered_device_calls_nothing
    (R : Type) (resources_of : R -> resources)
    (perform : call -> R -> reply * R)
    (m : snapshot) (rm : R) (d : device) :
  registered d = false ->
  calls_of (snd (fst (fst (reconcile resources_of perform m rm d)))) = [] /\
  snd (reconcile resources_of perform m rm d) = rm.
Proof.
  intros Hreg. unfold reconcile.
  destruct (generateLwm2mModel (cloudDefinition d) (resources_of rm) m)
    as [curr|] eqn:Hgen.
  - destruct (modelUpdateInProgress d) eqn:Hflag.
    + rewrite (bleModelUpdated_dropped _ _ _ _ Hgen Hflag). auto.
    + rewrite (bleModelUpdated_values _ _ _ _ Hgen Hflag (or_introl Hreg)).
      rewrite value_loop_unregistered by exact Hreg. auto.
  - rewrite (bleModelUpdated_throws _ _ _ Hgen). auto.
Qed.

Lemma unregistered_device_calls_nothing_witness :
  calls_of (snd (fst (fst (reconcile exposed mirror_perform snapshot_21
                                     (mkMirror [] [])
                                     (set_registered false
                                        (registered_device
                                           temp_definition))))))
  = [].
Proof.
  apply (unregistered_device_calls_nothing mirror exposed mirror_perform
           snapshot_21 (mkMirror [] [])
           (set_registered false (registered_device temp_definition))).
  reflexivity.
Defined.

(** ** The fingerprint of the generated list *)

Lemma generated_same_but_value rd rk wk ks sm1 sm2 res1 res2 :
  Forall2 same_but_value
          (map (rule_for rd rk wk res1 sm1) ks)
          (map (rule_for rd rk wk res2 sm2) ks).
Proof.
  induction ks as [|k ks IH]; simpl; constructor; [|exact IH].
  unfold same_but_value, rule_for; simpl. auto.
Qed.

(** X7.  The fingerprint of the generated descriptor list is fixed by the
    cloud definition: two snapshots, built into lists against whatever the
    remote service exposes at the time, give lists of one fingerprint. *)
Theorem generated_fingerprint_fixed_by_definition
    (definition : cloud_definition) (res1 res2 : resources)
    (m1 m2 : snapshot) (curr1 curr2 : descriptor_model) :
  generateLwm2mModel definition res1 m1 = Some curr1 ->
  generateLwm2mModel definition res2 m2 = Some curr2 ->
  getSchema curr1 = getSchema curr2 /\
  map path curr1 = map path curr2 /\
  map operation curr1 = map operation curr2 /\
  map observable curr1 = map observable curr2.
Proof.
  intros H1 H2.
  destruct (generate_Some _ _ _ _ H1) as (rd & wr & Hrd & Hwr).
  rewrite (generate_tables _ _ _ _ _ Hrd Hwr) in H1.
  rewrite (generate_tables _ _ _ _ _ Hrd Hwr) in H2.
  injection H1 as <-. injection H2 as <-.
  split; [apply getSchema_value_irrelevant, generated_same_but_value|].
  rewrite !map_map. repeat split; apply map_ext; reflexivity.
Qed.

Lemma generated_fingerprint_fixed_by_definition_witness :
  getSchema [mkDescriptor "/temp" "dynamic" ["GET"] "21" (Some true);
             mkDescriptor "/hum" "dynamic" ["GET"] "40" (Some true)]
  = getSchema (values climate_resources).
Proof.
  apply (generated_fingerprint_fixed_by_definition climate_definition
           [] climate_resources climate_snapshot [] _ _ eq_refl eq_refl).
Defined.

(** ** Reconciliations that only push values *)

Lemma subseq_length {A : Type} (s l : list A) :
  subseq s l -> List.length s <= List.length l.
Proof. induction 1; simpl; lia. Qed.

Lemma calls_of_app (a b : list event) :
  calls_of (a ++ b) = calls_of a ++ calls_of b.
Proof.
  induction a as [|e a IH]; simpl; [reflexivity|].
  destruct e; simpl; now rewrite IH.
Qed.

(** In the value phase the calls are [setValue] calls of entries of the new
    list, in list order. *)
Lemma reconcile_values_subseq
    (R : Type) (resources_of : R -> resources)
    (perform : call -> R -> reply * R)
    (m : snapshot) (rm : R) (d : device) (curr : descriptor_model) :
  generateLwm2mModel (cloudDefinition d) (resources_of rm) m = Some curr ->
  modelUpdateInProgress d = false ->
  registered d = false \/
  getSchema curr = getSchema (values (resources_of rm)) ->
  exists sub,
    subseq sub curr /\
    calls_of (snd (fst (fst (reconcile resources_of perform m rm d))))
    = map setValue_call sub.
Proof.
  intros Hgen Hflag Hcase. unfold reconcile.
  rewrite (bleModelUpdated_values _ _ _ _ Hgen Hflag Hcase).
  destruct (value_loop curr (model d) curr (resources_of rm)
              (set_modelUpdateInProgress true (set_bleModel m d)))
    as [[d1 evs] next] eqn:E.
  pose proof (value_loop_trace _ _ _ _ _ _ _ _ E) as Htr.
  pose proof (value_loop_spec _ _ _ _ _ _ _ _ E) as [_ Hsp].
  destruct next as [k'|]; simpl.
  - destruct Htr as (rule & rest & -> & ->).
    destruct Hsp as [-> (r0 & rest0 & Hk & _ & _ & skipped & Hrest)].
    injection Hk as <- <-.
    pose proof (run_fuel_values R resources_of perform curr (model d)
                  (cont_size (KSetValue curr (model d) rule rest))
                  rule rest rm
                  (set_modelUpdateInProgress true (set_bleModel m d))) as Hrun.
    unfold run.
    destruct (run_fuel resources_of perform
                (cont_size (KSetValue curr (model d) rule rest))
                (KSetValue curr (model d) rule rest) rm
                (set_modelUpdateInProgress true (set_bleModel m d)))
      as [[[d2 evs'] more] rm2].
    destruct Hrun as ((sub & Hsub & Hcalls) & _).
    exists (rule :: sub). split.
    + rewrite Hrest. apply subseq_after. now constructor.
    + simpl. now rewrite Hcalls.
  - exists []. split; [apply subseq_none|].
    destruct Htr as [-> | (rule' & ->)]; reflexivity.
Qed.

(** X9.  A reconciliation makes at most three remote calls, or at most one
    per entry of the new descriptor list when that is more. *)
Theorem reconciliation_calls_bounded
    (R : Type) (resources_of : R -> resources)
    (perform : call -> R -> reply * R)
    (m : snapshot) (rm : R) (d : device) (curr : descriptor_model) :
  generateLwm2mModel (cloudDefinition d) (resources_of rm) m = Some curr ->
  List.length
    (calls_of (snd (fst (fst (reconcile resources_of perform m rm d)))))
  <= Nat.max 3 (List.length curr).
Proof.
  intros Hgen.
  destruct (modelUpdateInProgress d) eqn:Hflag.
  { unfold reconcile. rewrite (bleModelUpdated_dropped _ _ _ _ Hgen Hflag).
    simpl. lia. }
  assert (Hvalues :
            registered d = false \/
            getSchema curr = getSchema (values (resources_of rm)) ->
            List.length
              (calls_of
                 (snd (fst (fst (reconcile resources_of perform m rm d)))))
            <= Nat.max 3 (List.length curr)).
  { intros Hcase.
    destruct (reconcile_values_subseq R resources_of perform m rm d curr
                Hgen Hflag Hcase) as (sub & Hsub & ->).
    rewrite length_map. apply subseq_length in Hsub. lia. }
  destruct (registered d) eqn:Hreg; [|auto].
  destruct (String.eqb_spec (getSchema curr)
                            (getSchema (values (resources_of rm))))
    as [Hs|Hs]; [auto|].
  unfold reconcile.
  rewrite (bleModelUpdated_schema_change _ _ _ _ Hgen Hflag Hreg Hs).
  assert (Hb : 3 <= Nat.max 3 (List.length curr)) by lia.
  revert Hb. generalize (Nat.max 3 (List.length curr)) as bound.
  intros bound Hb. unfold settle, run. simpl.
  destruct (perform (CSetResourceModel curr) rm) as [[v1|] rm1]; simpl;
    [|lia].
  destruct (perform CDeregister rm1) as [[v2|] rm2]; simpl; [|lia].
  destruct (perform CRegister rm2) as [[v3|] rm3]; simpl; lia.
Qed.

Lemma reconciliation_calls_bounded_witness :
  List.length
    (calls_of (snd (fst (fst (reconcile exposed mirror_perform
                                        climate_snapshot
                                        (mkMirror climate_resources [])
                                        (registered_device
                                           climate_definition))))))
  <= 3.
Proof.
  apply (reconciliation_calls_bounded mirror exposed mirror_perform
           climate_snapshot (mkMirror climate_resources [])
           (registered_device climate_definition) _ eq_refl).
Defined.

Lemma generate_same_schema definition res1 res2 m1 m2 curr1 curr2 :
  generateLwm2mModel definition res1 m1 = Some curr1 ->
  generateLwm2mModel definition res2 m2 = Some curr2 ->
  getSchema curr1 = getSchema curr2.
Proof.
  intros H1 H2.
  destruct (generate_Some _ _ _ _ H1) as (rd & wr & Hrd & Hwr).
  rewrite (generate_tables _ _ _ _ _ Hrd Hwr) in H1.
  rewrite (generate_tables _ _ _ _ _ Hrd Hwr) in H2.
  injection H1 as <-. injection H2 as <-.
  apply getSchema_value_irrelevant, generated_same_but_value.
Qed.

Lemma forallb_setValue (sub : descriptor_model) :
  forallb is_setValue (map setValue_call sub) = true.
Proof. induction sub as [|r sub IH]; simpl; auto. Qed.

Section ValuesOnly.

Variable R : Type.
Variable resources_of : R -> resources.
Variable perform : call -> R -> reply * R.
Hypothesis remote_faithful : faithful resources_of perform.

(** Pushing values to a faithful remote keeps the fingerprint of what it
    exposes. *)
Lemma run_fuel_values_schema curr old n :
  forall rule rest rm d,
    let '(_, rm') :=
      run_fuel resources_of perform n (KSetValue curr old rule rest) rm d in
    getSchema (values (resources_of rm'))
    = getSchema (values (resources_of rm)).
Proof.
  induction n as [|n IH]; intros rule rest rm d; [reflexivity|].
  simpl. pose proof (remote_faithful (CSetValue (path rule) (value rule)) rm)
    as Hf.
  destruct (perform (CSetValue (path rule) (value rule)) rm) as [[v|] rm1];
    simpl in Hf; simpl.
  - assert (Hs : getSchema (values (resources_of rm1))
                 = getSchema (values (resources_of rm))).
    { rewrite Hf. apply getSchema_set_value. }
    destruct (value_loop curr old rest (resources_of rm1) d)
      as [[d1 evs] next] eqn:E.
    apply value_loop_spec in E. destruct E as [_ Hsp].
    destruct next as [k'|]; [|exact Hs].
    destruct Hsp as [_ (rule' & rest' & -> & _)].
    specialize (IH rule' rest' rm1 d1).
    destruct (run_fuel resources_of perform n
                (KSetValue curr old rule' rest') rm1 d1)
      as [[[d2 evs'] more] rm2].
    congruence.
  - now rewrite Hf.
Qed.

(** X8.  Once a faithful remote service exposes resources with the
    fingerprint of the generated list, a snapshot that is reconciled makes
    [setValue] calls only, never register, deregister or setResourceModel,
    and leaves the remote fingerprint, the cleared flag and so this very
    situation behind for every snapshot to come. *)
Theorem stable_schema_only_sets_values
    (m : snapshot) (rm : R) (d : device) (curr : descriptor_model) :
  generateLwm2mModel (cloudDefinition d) (resources_of rm) m = Some curr ->
  modelUpdateInProgress d = false ->
  getSchema curr = getSchema (values (resources_of rm)) ->
  let '((d', tr, _), rm') := reconcile resources_of perform m rm d in
  forallb is_setValue (calls_of tr) = true /\
  modelUpdateInProgress d' = false /\
  forall m2 curr2,
    generateLwm2mModel (cloudDefinition d') (resources_of rm') m2
    = Some curr2 ->
    getSchema curr2 = getSchema (values (resources_of rm')).
Proof.
  intros Hgen Hflag Hs.
  destruct (reconcile_values_subseq R resources_of perform m rm d curr
              Hgen Hflag (or_intror Hs)) as (sub & _ & Hcalls).
  pose proof (reconcile_stores R resources_of perform m rm d curr Hgen)
    as Hst.
  assert (Hschema :
            getSchema
              (values (resources_of
                         (snd (reconcile resources_of perform m rm d))))
            = getSchema (values (resources_of rm))).
  { unfold reconcile.
    rewrite (bleModelUpdated_values _ _ _ _ Hgen Hflag (or_intror Hs)).
    destruct (value_loop curr (model d) curr (resources_of rm)
                (set_modelUpdateInProgress true (set_bleModel m d)))
      as [[d1 evs] next] eqn:E.
    apply value_loop_spec in E. destruct E as [_ Hsp].
    destruct next as [k'|]; simpl; [|reflexivity].
    destruct Hsp as [_ (rule & rest & -> & _)]. unfold run.
    pose proof (run_fuel_values_schema curr (model d)
                  (cont_size (KSetValue curr (model d) rule rest))
                  rule rest rm d1) as Hrun.
    destruct (run_fuel resources_of perform
                (cont_size (KSetValue curr (model d) rule rest))
                (KSetValue curr (model d) rule rest) rm d1)
      as [[[d2 evs'] more] rm2].
    exact Hrun. }
  destruct (reconcile resources_of perform m rm d) as [[[d' tr] k] rm'].
  simpl in Hcalls, Hschema. destruct Hst as (_ & _ & _ & Hf & Hdef).
  split; [rewrite Hcalls; apply forallb_setValue|].
  split; [congruence|].
  intros m2 curr2 Hgen2. rewrite Hdef in Hgen2.
  rewrite Hschema, <- Hs.
  exact (generate_same_schema _ _ _ _ _ _ _ Hgen2 Hgen).
Qed.

End ValuesOnly.

Lemma stable_schema_only_sets_values_witness :
  let '((d', tr, _), rm') :=
    reconcile exposed mirror_perform climate_snapshot
              (mkMirror climate_resources [true; false])
              (registered_device climate_definition) in
  forallb is_setValue (calls_of tr) = true /\
  modelUpdateInProgress d' = false /\
  forall m2 curr2,
    generateLwm2mModel (cloudDefinition d') (exposed rm') m2 = Some curr2 ->
    getSchema curr2 = getSchema (values (exposed rm')).
Proof.
  apply (stable_schema_only_sets_values mirror exposed mirror_perform
           mirror_faithful climate_snapshot
           (mkMirror climate_resources [true; false])
           (registered_device climate_definition) _ eq_refl eq_refl eq_refl).
Defined.

(** ** Exactly the changed values are pushed *)

Lemma old_value_ext old res1 res2 rule :
  lookup (path rule) res1 = lookup (path rule) res2 ->
  old_value old res1 rule = old_value old res2 rule.
Proof. intros H. unfold old_value. now rewrite H. Qed.

Lemma value_loop_ext curr old rules res1 res2 :
  (forall r, In r rules -> lookup (path r) res1 = lookup (path r) res2) ->
  forall d,
    value_loop curr old rules res1 d = value_loop curr old rules res2 d.
Proof.
  induction rules as [|rule rest IH]; intros H d; simpl; [reflexivity|].
  rewrite (old_value_ext old res1 res2 rule (H rule (or_introl eq_refl))).
  rewrite (H rule (or_introl eq_refl)).
  rewrite IH; [reflexivity|]. intros r Hr. apply H. now right.
Qed.

Lemma changed_ext old rules res1 res2 :
  (forall r, In r rules -> lookup (path r) res1 = lookup (path r) res2) ->
  filter (changed old res1) rules = filter (changed old res2) rules.
Proof.
  intros H. apply filter_ext_in. intros r Hr. unfold changed.
  now rewrite (old_value_ext old res1 res2 r (H r Hr)).
Qed.

(** The loop of a registered device stops at the first rule whose value
    changed. *)
Lemma value_loop_changed curr old res rules :
  forall d d' tr k,
    registered d = true ->
    value_loop curr old rules res d = (d', tr, k) ->
    match k with
    | None =>
        (tr = [] /\ filter (changed old res) rules = []) \/
        In (EvLog LogModelUpdateFailed) tr
    | Some k' =>
        d' = d /\
        exists rule rest skipped,
          k' = KSetValue curr old rule rest /\
          rules = skipped ++ rule :: rest /\
          filter (changed old res) rules
          = rule :: filter (changed old res) rest
    end.
Proof.
  induction rules as [|rule rest IH]; intros d d' tr k Hreg H; simpl in H.
  - inversion H; subst. auto.
  - rewrite Hreg, andb_true_r in H. simpl. fold (changed old res rule) in H.
    destruct (changed old res rule) eqn:Hc.
    + destruct (lookup (path rule) res); inversion H; subst.
      * split; [reflexivity|]. exists rule, rest, []. auto.
      * right. simpl. auto.
    + specialize (IH _ _ _ _ Hreg H). destruct k as [k'|]; [|exact IH].
      destruct IH as [Hd (r0 & rest0 & sk & Hk & Hsk & Hf)].
      split; [exact Hd|]. exists r0, rest0, (rule :: sk).
      split; [exact Hk|]. split; [simpl; now rewrite Hsk | exact Hf].
Qed.

Lemma NoDup_suffix (skipped rest : list string) (x : string) :
  NoDup (skipped ++ x :: rest) -> NoDup (x :: rest).
Proof.
  induction skipped as [|y skipped IH]; simpl; intros H; [exact H|].
  inversion H. auto.
Qed.

Section ExactValues.

Variable R : Type.
Variable resources_of : R -> resources.
Variable perform : call -> R -> reply * R.
Hypothesis remote_faithful : faithful resources_of perform.

Lemma run_fuel_values_exact curr old n :
  forall rule rest rm d,
    registered d = true ->
    NoDup (map path (rule :: rest)) ->
    let '((_, tr, more), _) :=
      run_fuel resources_of perform n (KSetValue curr old rule rest) rm d in
    more = None ->
    ~ In (EvLog LogModelUpdateFailed) tr ->
    calls_of tr
    = map setValue_call (filter (changed old (resources_of rm)) rest).
Proof.
  induction n as [|n IH]; intros rule rest rm d Hreg Hnd; [discriminate|].
  simpl. pose proof (remote_faithful (CSetValue (path rule) (value rule)) rm)
    as Hf.
  destruct (perform (CSetValue (path rule) (value rule)) rm) as [[v|] rm1];
    simpl in Hf; simpl.
  2: { intros _ Hno. exfalso. apply Hno. simpl. auto. }
  assert (Hsame : forall r, In r rest ->
                            lookup (path r) (resources_of rm1)
                            = lookup (path r) (resources_of rm)).
  { intros r Hr. rewrite Hf, lookup_set_value.
    destruct (String.eqb_spec (path rule) (path r)) as [E|_]; [|reflexivity].
    exfalso. inversion Hnd as [|? ? Hnotin _]; subst.
    apply Hnotin. rewrite E. now apply in_map. }
  rewrite <- (changed_ext old rest _ _ Hsame).
  destruct (value_loop curr old rest (resources_of rm1) d)
    as [[d1 evs] next] eqn:E.
  pose proof (value_loop_trace _ _ _ _ _ _ _ _ E) as Htr.
  pose proof (value_loop_changed _ _ _ _ _ _ _ _ Hreg E) as Hch.
  destruct next as [k'|].
  - destruct Hch as [-> (rule' & rest' & skipped & -> & Hsk & Hfil)].
    destruct Htr as (r0 & rest0 & Hk & ->). injection Hk as <- <-.
    assert (Hnd' : NoDup (map path (rule' :: rest'))).
    { simpl in Hnd. apply NoDup_cons_iff in Hnd. destruct Hnd as [_ Hnd0].
      rewrite Hsk, map_app in Hnd0.
      simpl in Hnd0. simpl. eapply NoDup_suffix. exact Hnd0. }
    specialize (IH rule' rest' rm1 d Hreg Hnd').
    destruct (run_fuel resources_of perform n
                (KSetValue curr old rule' rest') rm1 d)
      as [[[d2 evs'] more] rm2].
    intros Hmore Hno. rewrite Hfil. simpl. f_equal.
    apply IH; [exact Hmore|].
    intros Hin. apply Hno. simpl. auto.
  - intros _ Hno. destruct Hch as [[-> ->] | Hfail]; [reflexivity|].
    exfalso. apply Hno. simpl. auto.
Qed.

(** X6.  A registered device whose remote service is faithful and exposes
    the fingerprint of the new list: when the reconciliation does not
    fail, its remote calls are the [setValue] calls of exactly the entries
    whose value differs from the value of the same path in the model stored
    before (or, for a path that model does not hold, from the value the
    remote service holds), in list order, one call for each. *)
Theorem changed_values_are_pushed_exactly
    (m : snapshot) (rm : R) (d : device) (curr : descriptor_model) :
  generateLwm2mModel (cloudDefinition d) (resources_of rm) m = Some curr ->
  modelUpdateInProgress d = false ->
  registered d = true ->
  getSchema curr = getSchema (values (resources_of rm)) ->
  ~ In (EvLog LogModelUpdateFailed)
       (snd (fst (fst (reconcile resources_of perform m rm d)))) ->
  calls_of (snd (fst (fst (reconcile resources_of perform m rm d))))
  = map setValue_call
        (filter (changed (model d) (resources_of rm)) curr).
Proof.
  intros Hgen Hflag Hreg Hs. unfold reconcile.
  rewrite (bleModelUpdated_values _ _ _ _ Hgen Hflag (or_intror Hs)).
  pose proof (generated_paths_NoDup _ _ _ _ Hgen) as Hnd.
  set (d0 := set_modelUpdateInProgress true (set_bleModel m d)).
  assert (Hreg0 : registered d0 = true) by exact Hreg.
  destruct (value_loop curr (model d) curr (resources_of rm) d0)
    as [[d1 evs] next] eqn:E.
  pose proof (value_loop_trace _ _ _ _ _ _ _ _ E) as Htr.
  pose proof (value_loop_changed _ _ _ _ _ _ _ _ Hreg0 E) as Hch.
  destruct next as [k'|]; simpl.
  - destruct Hch as [-> (rule & rest & skipped & -> & Hsk & Hfil)].
    destruct Htr as (r0 & rest0 & Hk & ->). injection Hk as <- <-.
    assert (Hnd' : NoDup (map path (rule :: rest))).
    { rewrite Hsk, map_app in Hnd. simpl in Hnd. simpl.
      eapply NoDup_suffix. exact Hnd. }
    pose proof (run_fuel_values_exact curr (model d)
                  (cont_size (KSetValue curr (model d) rule rest))
                  rule rest rm d0 Hreg0 Hnd') as Hrun.
    pose proof (run_fuel_ends R resources_of perform
                  (cont_size (KSetValue curr (model d) rule rest))
                  (KSetValue curr (model d) rule rest) rm d0 (le_n _))
      as Hend.
    unfold run.
    destruct (run_fuel resources_of perform
                (cont_size (KSetValue curr (model d) rule rest))
                (KSetValue curr (model d) rule rest) rm d0)
      as [[[d2 evs'] more] rm2].
    simpl in Hend. intros Hno. rewrite Hfil. simpl. f_equal.
    apply Hrun; [exact Hend|].
    intros Hin. apply Hno. simpl. auto.
  - intros Hno. destruct Hch as [[-> ->] | Hfail]; [reflexivity|].
    exfalso. apply Hno. simpl. auto.
Qed.

End ExactValues.

Lemma changed_values_are_pushed_exactly_witness :
  calls_of
    (snd (fst (fst (reconcile exposed mirror_perform climate_snapshot
                              (mkMirror climate_resources [])
                              (set_model
                                 [mkDescriptor "/temp" "dynamic" ["GET"] "21"
                                               (Some true)]
                                 (registered_device climate_definition))))))
  = [CSetValue "/hum" "40"].
Proof.
  apply (changed_values_are_pushed_exactly mirror exposed mirror_perform
           mirror_faithful climate_snapshot (mkMirror climate_resources [])
           (set_model [mkDescriptor "/temp" "dynamic" ["GET"] "21" (Some true)]
                      (registered_device climate_definition))
           _ eq_refl eq_refl eq_refl eq_refl).
  vm_compute. intros H.
  repeat (destruct H as [H|H]; [discriminate H|]). exact H.
Defined.

(** ** More on the generated descriptors *)

Lemma lookup_has {A : Type} (k : string) (t : table A) (a : A) :
  lookup k t = Some a -> has (keys t) k = true.
Proof.
  intros H. apply has_In. induction t as [|[k' a'] t IH]; simpl in *;
    [discriminate|].
  destruct (String.eqb_spec k k') as [->|_]; [now left|].
  right. now apply IH.
Qed.

(** X10.  For a key whose reader returns a value with a string form, the
    descriptor carries that string when it is not empty, whatever the
    remote service holds; when the string is empty the descriptor carries
    the value the remote service holds for the path, if it holds one. *)
Theorem reading_wins_unless_empty definition res m rd wr k f x s :
  read definition = Some rd -> write definition = Some wr ->
  lookup k rd = Some f ->
  f (createSimplifiedModel m) = Some x ->
  toString x = Some s ->
  exists curr,
    generateLwm2mModel definition res m = Some curr /\
    (exists r, In r curr /\ path r = String "/" k) /\
    (forall r, In r curr -> path r = String "/" k ->
               value r = if is_empty s
                         then remote_value res (String "/" k)
                         else s).
Proof.
  intros Hr Hw Hf Hx Hs.
  pose proof (lookup_has _ _ _ Hf) as Hhas.
  rewrite (generate_tables definition res m rd wr Hr Hw).
  eexists. split; [reflexivity|]. split.
  - eexists. split; [|apply rule_for_path].
    apply in_map, dedupe_In, in_or_app. left. now apply has_In.
  - intros r Hin Hp. apply in_map_iff in Hin. destruct Hin as (k' & <- & _).
    rewrite rule_for_path in Hp. apply slash_inj in Hp. subst k'.
    unfold rule_for, read_value, remote_value; cbn [value].
    rewrite Hhas, Hf, Hx, Hs.
    destruct (is_empty s) eqn:He; [|reflexivity].
    destruct s; [|discriminate He].
    change ("/" ++ k)%string with (String "/" k).
    destruct (lookup (String "/" k) res); reflexivity.
Qed.

Lemma reading_wins_unless_empty_witness :
  exists curr,
    generateLwm2mModel temp_definition [("/temp", temp_descriptor "20")]
                       snapshot_21
    = Some curr /\
    (exists r, In r curr /\ path r = "/temp") /\
    (forall r, In r curr -> path r = "/temp" -> value r = "21").
Proof.
  apply (reading_wins_unless_empty temp_definition
           [("/temp", temp_descriptor "20")] snapshot_21
           [("temp", reader_c1)] [] "temp" reader_c1 (JNum 21 eq_refl) "21"
           eq_refl eq_refl eq_refl eq_refl eq_refl).
Defined.

(** X11.  Every generated descriptor allows GET, PUT or both, GET first:
    the list of operations is never empty and holds nothing else; a key of
    both tables gives the one descriptor with both operations. *)
Theorem operations_are_get_put definition res m curr r :
  generateLwm2mModel definition res m = Some curr ->
  In r curr ->
  valueType r = "dynamic" /\
  (operation r = ["GET"] \/ operation r = ["PUT"] \/
   operation r = ["GET"; "PUT"]) /\
  (forall rd wr k,
      read definition = Some rd -> write definition = Some wr ->
      path r = String "/" k -> In k (keys rd) -> In k (keys wr) ->
      operation r = ["GET"; "PUT"]).
Proof.
  intros Hgen Hin.
  destruct (generate_Some _ _ _ _ Hgen) as (rd & wr & Hrd & Hwr).
  rewrite (generate_tables _ _ _ _ _ Hrd Hwr) in Hgen. injection Hgen as <-.
  apply in_map_iff in Hin. destruct Hin as (k & <- & Hk).
  apply dedupe_In, in_app_iff in Hk.
  split; [reflexivity|]. split.
  - unfold rule_for; cbn [operation].
    destruct (has (keys rd) k) eqn:H1, (has (keys wr) k) eqn:H2; simpl; auto.
    apply has_false_In in H1. apply has_false_In in H2. tauto.
  - intros rd' wr' k' Hrd' Hwr' Hp H1 H2.
    rewrite Hrd in Hrd'. injection Hrd' as <-.
    rewrite Hwr in Hwr'. injection Hwr' as <-.
    rewrite rule_for_path in Hp. apply slash_inj in Hp. subst k'.
    apply has_In in H1. apply has_In in H2.
    unfold rule_for; cbn [operation]. now rewrite H1, H2.
Qed.

Lemma operations_are_get_put_witness :
  operation (rule_for [("led", reader_c1)] ["led"] ["led"] []
                      (createSimplifiedModel led_snapshot) "led")
  = ["GET"; "PUT"].
Proof.
  apply (proj2 (proj2 (operations_are_get_put led_definition [] led_snapshot
                         [rule_for [("led", reader_c1)] ["led"] ["led"] []
                                   (createSimplifiedModel led_snapshot) "led"]
                         _ eq_refl (or_introl eq_refl)))
               [("led", reader_c1)] [("led", led_writer)] "led"
               eq_refl eq_refl eq_refl).
  - simpl. auto.
  - simpl. auto.
Defined.

Lemma first_seen_NoDup_same (a : list string) :
  forall seen,
    NoDup a -> (forall v, In v a -> ~ In v seen) -> first_seen seen a = a.
Proof.
  induction a as [|x a IH]; intros seen Hnd Hdis; simpl; [reflexivity|].
  inversion Hnd as [|? ? Hx Hnd']; subst.
  assert (Hs : has seen x = false).
  { apply has_false_In. apply Hdis. now left. }
  rewrite Hs. f_equal. apply IH; [exact Hnd'|].
  intros v Hv Hin. apply in_app_iff in Hin. destruct Hin as [Hin|[->|[]]].
  - apply (Hdis v); [now right | exact Hin].
  - contradiction.
Qed.

(** X12.  The filter that removes repeated keys leaves a list without
    repetitions alone, so filtering twice is filtering once; it keeps every
    key, and keeps the keys in the order of their first occurrence. *)
Theorem dedupe_idempotent (a : list string) :
  (NoDup a -> dedupe a = a) /\
  dedupe (dedupe a) = dedupe a /\
  NoDup (dedupe a) /\
  (forall v, In v (dedupe a) <-> In v a) /\
  (forall b, dedupe (a ++ b) = dedupe a ++ first_seen a b).
Proof.
  assert (H1 : forall l, NoDup l -> dedupe l = l).
  { intros l Hl. rewrite dedupe_first_seen.
    apply first_seen_NoDup_same; auto. }
  split; [apply H1|]. split; [apply H1, dedupe_NoDup|].
  split; [apply dedupe_NoDup|]. split; [apply dedupe_In|].
  intros b. rewrite !dedupe_first_seen.
  assert (Hgen : forall l seen seen',
             (forall v, has seen' v = has (seen ++ l) v) ->
             first_seen seen (l ++ b)
             = first_seen seen l ++ first_seen seen' b).
  { induction l as [|x l IH]; intros seen seen' Hs; simpl.
    - rewrite app_nil_r in Hs. clear -Hs.
      revert seen seen' Hs. induction b as [|y b IHb]; intros seen seen' Hs;
        simpl; [reflexivity|].
      rewrite Hs. destruct (has seen y); [now apply IHb|].
      f_equal. apply IHb. intros v. now rewrite !has_app, Hs.
    - destruct (has seen x) eqn:Hx.
      + apply IH. intros v. rewrite Hs. apply has_In in Hx.
        apply eq_true_iff_eq. rewrite !has_In, !in_app_iff. simpl.
        split; [intros [H|[->|H]]; auto | tauto].
      + simpl. f_equal. apply IH. intros v.
        rewrite Hs, <- app_assoc. reflexivity. }
  apply Hgen. intros v. reflexivity.
Qed.

Lemma dedupe_idempotent_witness : dedupe ["temp"; "hum"] = ["temp"; "hum"].
Proof.
  apply (proj1 (dedupe_idempotent ["temp"; "hum"])).
  repeat constructor; simpl; intuition discriminate.
Defined.

(** ** The simplified model *)

Lemma lookup_map_values {A B : Type} (g : A -> B) (k : string) (t : table A) :
  lookup k (map (fun kv => (fst kv, g (snd kv))) t)
  = option_map g (lookup k t).
Proof.
  induction t as [|[k' a] t IH]; simpl; [reflexivity|].
  destruct (String.eqb k k'); [reflexivity | exact IH].
Qed.

(** X13.  The simplified model has the services and the characteristics of
    the snapshot, in their order, and holds for each characteristic its
    value and nothing else: a reader finds [snap[service][chr]] exactly
    where the snapshot has the characteristic, and finds its value there. *)
Theorem simplified_model_holds_the_values (m : snapshot) :
  keys (createSimplifiedModel m) = keys m /\
  (forall service,
      option_map keys (lookup service (createSimplifiedModel m))
      = option_map keys (lookup service m)) /\
  (forall service chr,
      simplified_get (createSimplifiedModel m) service chr
      = option_map cvalue (snapshot_get m service chr)).
Proof.
  unfold createSimplifiedModel. split; [|split].
  - unfold keys. rewrite map_map. reflexivity.
  - intros service.
    rewrite (lookup_map_values
               (map (fun cx : string * characteristic =>
                       (fst cx, cvalue (snd cx))))).
    unfold snapshot, table in *.
    generalize (lookup service m). intros [chars|]; simpl; [|reflexivity].
    unfold keys. now rewrite map_map.
  - intros service chr. unfold simplified_get, snapshot_get.
    rewrite (lookup_map_values
               (map (fun cx : string * characteristic =>
                       (fst cx, cvalue (snd cx))))).
    unfold snapshot, table in *.
    generalize (lookup service m). intros [chars|]; simpl; [|reflexivity].
    apply lookup_map_values.
Qed.

(** ** Splitting the path of a write *)

Lemma split_slash_cons (p : string) :
  exists s l, split_slash p = s :: l.
Proof.
  induction p as [|c p (s & l & IH)]; simpl; [eauto|].
  destruct (Ascii.eqb c "/"); [eauto|]. rewrite IH. eauto.
Qed.

(** X14.  Splitting a path at its slashes loses nothing: joined with
    slashes the parts give the path back; there is one part more than
    there are slashes, and no part has a slash in it. *)
Theorem split_slash_join (p : string) :
  join "/" (split_slash p) = p /\
  List.length (split_slash p) = S (slashes p) /\
  Forall (fun s => slashes s = 0) (split_slash p).
Proof.
  induction p as [|c p (IHj & IHl & IHf)]; simpl.
  - repeat split. repeat constructor.
  - destruct (split_slash_cons p) as (s & l & Hs). rewrite Hs in *.
    destruct (Ascii.eqb c "/") eqn:Hc.
    + apply Ascii.eqb_eq in Hc. subst c. split; [|split].
      * change (join "/" (EmptyString :: s :: l))
          with (String "/" (join "/" (s :: l))).
        now rewrite IHj.
      * simpl. simpl in IHl. lia.
      * constructor; [reflexivity | exact IHf].
    + split; [|split].
      * destruct l as [|s' l].
        -- simpl in *. now rewrite IHj.
        -- change (join "/" (String c s :: s' :: l))
             with (String c (join "/" (s :: s' :: l))).
           now rewrite IHj.
      * simpl. simpl in IHl. lia.
      * inversion IHf; subst. constructor; [|assumption].
        simpl. rewrite Hc. assumption.
Qed.

(** ** Writes from the remote service *)

Lemma Buffer_octets (l : list Z) : Forall octet (Buffer l).
Proof.
  unfold Buffer. apply Forall_forall. intros z Hz.
  apply in_map_iff in Hz. destruct Hz as (y & <- & _).
  unfold octet. apply Z.mod_pos_bound. reflexivity.
Qed.

Lemma find_characteristic_own js bm q c :
  find_characteristic js bm q = Characteristic c ->
  exists chars,
    lookup (nth 0 (split_slash q) "undefined") bm = Some chars /\
    lookup (nth 1 (split_slash q) "undefined") chars = Some c.
Proof.
  unfold find_characteristic, get.
  destruct (lookup (nth 0 (split_slash q) "undefined") bm) as [chars|].
  - destruct (lookup (nth 1 (split_slash q) "undefined") chars) as [c'|]
      eqn:Hc.
    + intros H. injection H as <-. now exists chars.
    + destruct (has object_prototype_names _); discriminate.
  - destruct (has object_prototype_names _); [|discriminate].
    destruct (builtin_member js _ _); discriminate.
Qed.

Lemma do_writes_sound js (bm : snapshot) (reqs : list (string * wdata)) :
  calls_of (do_writes js bm reqs) = [] /\
  (forall key x, ~ In (EvWriter key x) (do_writes js bm reqs)) /\
  (forall handle bytes,
      In (EvCharWrite handle bytes) (do_writes js bm reqs) ->
      has_handle bm handle /\ Forall octet bytes).
Proof.
  induction reqs as [|[q a] reqs (IHc & IHw & IHh)]; simpl.
  - split; [reflexivity|]. split; [auto|]. intros handle bytes [].
  - destruct (find_characteristic js bm q) as [c| |] eqn:Hf.
    + destruct (char c) as [h|] eqn:Hh; simpl.
      * split; [exact IHc|]. split.
        -- intros key x [H|[H|H]]; try discriminate H. now apply (IHw key x).
        -- intros handle bytes [H|[H|H]]; try discriminate H.
           ++ injection H as <- <-. split; [|apply Buffer_octets].
              destruct (find_characteristic_own _ _ _ _ Hf) as (chars & Hs & Hc).
              exists (nth 0 (split_slash q) "undefined"), chars,
                     (nth 1 (split_slash q) "undefined"), c. auto.
           ++ now apply IHh.
      * split; [reflexivity|]. split.
        -- intros key x [H|[H|[]]]; discriminate H.
        -- intros handle bytes [H|[H|[]]]; discriminate H.
    + simpl. split; [reflexivity|]. split.
      * intros key x [H|[H|[]]]; discriminate H.
      * intros handle bytes [H|[H|[]]]; discriminate H.
    + simpl. split; [exact IHc|]. split.
      * intros key x [H|[H|H]]; try discriminate H. now apply (IHw key x).
      * intros handle bytes [H|[H|H]]; try discriminate H. now apply IHh.
Qed.

Lemma call_inherited_sound wr name v key :
  calls_of (call_inherited wr name v key) = [] /\
  (forall k x, In (EvWriter k x) (call_inherited wr name v key) ->
               name = "toLocaleString" /\ k = "toString" /\ x = JUndefined) /\
  (forall handle bytes,
      ~ In (EvCharWrite handle bytes) (call_inherited wr name v key)).
Proof.
  unfold call_inherited.
  destruct (String.eqb name "__proto__").
  { split; [reflexivity|]. split.
    - intros k x [H|[]]. discriminate H.
    - intros handle bytes [H|[]]. discriminate H. }
  destruct (String.eqb name "toLocaleString") eqn:Hl.
  - apply String.eqb_eq in Hl.
    destruct (lookup "toString" wr) as [w|].
    + destruct (w JUndefined) as [|r rs]; simpl.
      * split; [reflexivity|]. split.
        -- intros k x [H|[H|[]]]; try discriminate H.
           injection H as <- <-. auto.
        -- intros handle bytes [H|[H|[]]]; discriminate H.
      * split; [reflexivity|]. split.
        -- intros k x [H|[H|[H|[]]]]; try discriminate H.
           injection H as <- <-. auto.
        -- intros handle bytes [H|[H|[H|[]]]]; discriminate H.
    + split; [reflexivity|]. split.
      * intros k x [H|[]]. discriminate H.
      * intros handle bytes [H|[]]. discriminate H.
  - destruct (String.eqb name "__defineGetter__");
      [|destruct (String.eqb name "__defineSetter__")];
      (split; [reflexivity|]; split;
       [ intros k x Hin; simpl in Hin;
         repeat (destruct Hin as [Hin|Hin]; try discriminate Hin);
         destruct Hin
       | intros handle bytes Hin; simpl in Hin;
         repeat (destruct Hin as [Hin|Hin]; try discriminate Hin);
         destruct Hin ]).
Qed.

Lemma onPut_sound js p v d :
  calls_of (onPut js p v d) = [] /\
  (forall key x,
      In (EvWriter key x) (onPut js p v d) ->
      (key = substr1 p /\ x = v) \/
      (substr1 p = "toLocaleString" /\ key = "toString" /\ x = JUndefined)) /\
  (forall handle bytes,
      In (EvCharWrite handle bytes) (onPut js p v d) ->
      has_handle (bleModel d) handle /\ Forall octet bytes).
Proof.
  assert (Hlog : forall m : logmsg,
             calls_of [EvLog m] = [] /\
             (forall key x,
                 In (EvWriter key x) [EvLog m] ->
                 (key = substr1 p /\ x = v) \/
                 (substr1 p = "toLocaleString" /\ key = "toString" /\
                  x = JUndefined)) /\
             (forall handle bytes,
                 In (EvCharWrite handle bytes) [EvLog m] ->
                 has_handle (bleModel d) handle /\ Forall octet bytes)).
  { intros m. split; [reflexivity|]. split.
    - intros key x [H|[]]. discriminate H.
    - intros handle bytes [H|[]]. discriminate H. }
  assert (Hthrow :
             calls_of [EvThrow] = [] /\
             (forall key x,
                 In (EvWriter key x) [EvThrow] ->
                 (key = substr1 p /\ x = v) \/
                 (substr1 p = "toLocaleString" /\ key = "toString" /\
                  x = JUndefined)) /\
             (forall handle bytes,
                 In (EvCharWrite handle bytes) [EvThrow] ->
                 has_handle (bleModel d) handle /\ Forall octet bytes)).
  { split; [reflexivity|]. split.
    - intros key x [H|[]]. discriminate H.
    - intros handle bytes [H|[]]. discriminate H. }
  unfold onPut.
  destruct (write (cloudDefinition d)) as [wr|]; [|apply Hlog].
  destruct (get (substr1 p) wr) as [w| |]; [| |apply Hlog].
  - destruct (interpolate v) as [s|]; [|exact Hthrow].
    destruct (do_writes_sound js (bleModel d) (w v)) as (Hc & Hw & Hh).
    simpl. split; [exact Hc|]. split.
    + intros key x [H|[H|H]]; try discriminate H.
      * injection H as <- <-. auto.
      * now apply Hw in H.
    + intros handle bytes [H|[H|H]]; try discriminate H. now apply Hh.
  - destruct (interpolate v) as [s|]; [|exact Hthrow].
    destruct (call_inherited_sound wr (substr1 p) v s) as (Hc & Hw & Hh).
    simpl. split; [exact Hc|]. split.
    + intros key x [H|H]; [discriminate H|].
      right. now apply Hw.
    + intros handle bytes [H|H]; [discriminate H|]. now apply Hh in H.
Qed.

(** X15.  An inbound write makes no remote call; the write rule it calls is
    the one of its key, with its value, but for the key [toLocaleString]
    when the table does not list it: the method of that name which the table
    inherits calls the rule listed as [toString] without arguments; and
    every transport write it causes goes to the transport object of a
    characteristic of the stored snapshot and carries octets. *)
Theorem put_writes_octets_to_snapshot js p v d :
  calls_of (onPut js p v d) = [] /\
  (forall key x,
      In (EvWriter key x) (onPut js p v d) ->
      (key = substr1 p /\ x = v) \/
      (substr1 p = "toLocaleString" /\ key = "toString" /\ x = JUndefined)) /\
  (forall handle bytes,
      In (EvCharWrite handle bytes) (onPut js p v d) ->
      has_handle (bleModel d) handle /\ Forall octet bytes).
Proof. exact (onPut_sound js p v d). Qed.

Lemma put_writes_octets_to_snapshot_witness :
  has_handle led_snapshot 7 /\ Forall octet [44%Z].
Proof.
  apply (proj2 (proj2 (put_writes_octets_to_snapshot
                         es2017 "/led" (JStr "on")
                         (set_bleModel led_snapshot
                            (registered_device led_definition))))
               7 [44%Z]).
  vm_compute. auto.
Defined.

Lemma do_writes_missing js (bm : snapshot) (reqs : list (string * wdata)) :
  (forall q a, In (q, a) reqs -> find_characteristic js bm q = NotFound) ->
  (forall handle bytes,
      ~ In (EvCharWrite handle bytes) (do_writes js bm reqs)) /\
  ~ In EvThrow (do_writes js bm reqs) /\
  count_no_characteristic (do_writes js bm reqs) = List.length reqs.
Proof.
  induction reqs as [|[q a] reqs IH]; intros Hmiss; simpl.
  - split; [auto|]. split; [auto | reflexivity].
  - rewrite (Hmiss q a (or_introl eq_refl)).
    destruct IH as (IHw & IHt & IHn).
    { intros q' a' Hin. apply (Hmiss q' a'). now right. }
    simpl. split; [|split].
    + intros handle bytes [H|[H|H]]; try discriminate H. now apply (IHw _ _ H).
    + intros [H|[H|H]]; try discriminate H. now apply IHt.
    + now rewrite IHn.
Qed.

(** X16.  When the value of an inbound write can be printed and every path
    its write rule hands to [write] reads as nothing in the stored snapshot
    (a service or a characteristic that the snapshot neither lists nor
    inherits, a path without a slash), each of them is logged as not found
    and the rule goes on: nothing is written to the transport and no
    exception leaves [onPut]. *)
Theorem put_to_missing_characteristic js p v s d wr w :
  write (cloudDefinition d) = Some wr ->
  lookup (substr1 p) wr = Some w ->
  interpolate v = Some s ->
  (forall q a, In (q, a) (w v) ->
               find_characteristic js (bleModel d) q = NotFound) ->
  (forall handle bytes, ~ In (EvCharWrite handle bytes) (onPut js p v d)) /\
  ~ In EvThrow (onPut js p v d) /\
  count_no_characteristic (onPut js p v d) = List.length (w v).
Proof.
  intros Hwr Hw Hs Hmiss. unfold onPut, get. rewrite Hwr, Hw, Hs.
  destruct (do_writes_missing js (bleModel d) (w v) Hmiss) as (H1 & H2 & H3).
  simpl. split; [|split].
  - intros handle bytes [H|[H|H]]; try discriminate H. now apply (H1 _ _ H).
  - intros [H|[H|H]]; try discriminate H. now apply H2.
  - exact H3.
Qed.

Lemma put_to_missing_characteristic_witness :
  count_no_characteristic
    (onPut es2017 "/led" (JStr "on")
           (set_bleModel led_snapshot (registered_device gone_definition)))
  = 2.
Proof.
  apply (put_to_missing_characteristic es2017 "/led" (JStr "on") "on"
           (set_bleModel led_snapshot (registered_device gone_definition))
           [("led", gone_writer)] gone_writer eq_refl eq_refl eq_refl).
  intros q a [H|[H|[]]]; injection H as <- _; reflexivity.
Defined.

(** X17.  After the update for a snapshot whose descriptor list could be
    built, dropped or not and however its remote calls went, the transport
    writes of an inbound write go to characteristics of that snapshot; an
    update whose list could not be built leaves the stored snapshot as it
    was. *)
Theorem put_after_update_targets_the_snapshot
    (R : Type) (resources_of : R -> resources)
    (perform : call -> R -> reply * R)
    (js : engine) (m : snapshot) (rm : R) (d : device) :
  (forall curr p v handle bytes,
      generateLwm2mModel (cloudDefinition d) (resources_of rm) m
      = Some curr ->
      In (EvCharWrite handle bytes)
         (onPut js p v (fst (fst (fst (reconcile resources_of perform
                                                 m rm d))))) ->
      has_handle m handle) /\
  (generateLwm2mModel (cloudDefinition d) (resources_of rm) m = None ->
   bleModel (fst (fst (fst (reconcile resources_of perform m rm d))))
   = bleModel d).
Proof.
  split.
  - intros curr p v handle bytes Hgen Hin.
    pose proof (reconcile_stores R resources_of perform m rm d curr Hgen)
      as Hst.
    destruct (reconcile resources_of perform m rm d) as [[[d' tr] k] rm'].
    destruct Hst as (_ & _ & Hb & _). simpl in Hin.
    apply onPut_sound in Hin. rewrite Hb in Hin. tauto.
  - intros Hgen. unfold reconcile.
    now rewrite (bleModelUpdated_throws _ _ _ Hgen).
Qed.

Lemma put_after_update_targets_the_snapshot_witness :
  has_handle led_snapshot 7.
Proof.
  apply (proj1 (put_after_update_targets_the_snapshot
                  mirror exposed mirror_perform es2017 led_snapshot
                  (mkMirror [] [false])
                  (registered_device led_definition))
               _ "/led" (JStr "on") 7 [44%Z] eq_refl).
  vm_compute. auto.
Defined.

(** X19.  A remote write whose key the write table neither lists nor
    inherits is ignored, and so is every write when there is no write
    table: one line is logged, no write rule and no inherited method is
    called, no characteristic is written, no remote call is made and no
    exception leaves [onPut]. *)
Theorem put_to_unknown_key_is_ignored js p v d :
  (forall wr, write (cloudDefinition d) = Some wr ->
              get (substr1 p) wr = Absent) ->
  onPut js p v d = [EvLog (LogNoWriteRule p)] /\
  (forall key x, ~ In (EvWriter key x) (onPut js p v d)) /\
  (forall name x, ~ In (EvInherited name x) (onPut js p v d)) /\
  (forall handle bytes, ~ In (EvCharWrite handle bytes) (onPut js p v d)) /\
  ~ In EvThrow (onPut js p v d) /\
  calls_of (onPut js p v d) = [] /\
  logs_of (onPut js p v d) = [LogNoWriteRule p].
Proof.
  intros H.
  assert (E : onPut js p v d = [EvLog (LogNoWriteRule p)]).
  { unfold onPut. destruct (write (cloudDefinition d)) as [wr|]; [|reflexivity].
    now rewrite (H wr eq_refl). }
  rewrite E. split; [reflexivity|].
  repeat split; try reflexivity; intros; intros [F|[]]; discriminate F.
Qed.

Lemma put_to_unknown_key_is_ignored_witness :
  onPut es2017 "/temp" (JStr "on") (registered_device temp_definition)
  = [EvLog (LogNoWriteRule "/temp")].
Proof.
  apply (put_to_unknown_key_is_ignored es2017 "/temp" (JStr "on")
           (registered_device temp_definition)).
  intros wr H. injection H as <-. reflexivity.
Defined.

(** X20.  A write to [/toLocaleString], when the write table lists a rule
    [toString] and none for [toLocaleString], runs that [toString] rule
    without a value. *)
Theorem locale_string_runs_the_toString_rule js v s d wr w :
  write (cloudDefinition d) = Some wr ->
  lookup "toLocaleString" wr = None ->
  lookup "toString" wr = Some w ->
  interpolate v = Some s ->
  In (EvWriter "toString" JUndefined) (onPut js "/toLocaleString" v d) /\
  ~ In (EvWriter "toLocaleString" v) (onPut js "/toLocaleString" v d).
Proof.
  intros Hwr Hl Ht Hs. unfold onPut, get. simpl substr1.
  rewrite Hwr, Hl, Hs. simpl. unfold call_inherited. simpl. rewrite Ht.
  split.
  - right. right. now left.
  - intros [H|[H|[H|H]]]; try discriminate H.
    destruct (w JUndefined); simpl in H.
    + destruct H.
    + destruct H as [H|[]]. discriminate H.
Qed.

Lemma locale_string_runs_the_toString_rule_witness :
  In (EvWriter "toString" JUndefined)
     (onPut es2017 "/toLocaleString" (JStr "on")
            (set_bleModel led_snapshot (registered_device shadow_definition))).
Proof.
  apply (locale_string_runs_the_toString_rule es2017 (JStr "on") "on"
           (set_bleModel led_snapshot (registered_device shadow_definition))
           [("toString", led_writer)] led_writer
           eq_refl eq_refl eq_refl eq_refl).
Defined.

(** ** When the schema is pushed *)

(** X18.  For a registered device that is not updating, a snapshot starts
    the schema-change sequence exactly when the resources the remote
    service exposes are not, value for value aside, the generated
    descriptors in their order; in particular it does when the remote
    exposes nothing and the mapping has a key. *)
Theorem schema_pushed_iff_descriptors_differ m res d curr :
  generateLwm2mModel (cloudDefinition d) res m = Some curr ->
  modelUpdateInProgress d = false ->
  registered d = true ->
  (Forall2 same_but_value curr (values res) ->
   forallb is_setValue (calls_of (snd (fst (bleModelUpdated m res d))))
   = true) /\
  (~ Forall2 same_but_value curr (values res) ->
   calls_of (snd (fst (bleModelUpdated m res d))) = [CSetResourceModel curr]
   /\ snd (bleModelUpdated m res d) = Some (KSetResourceModel curr)) /\
  (res = [] -> curr <> [] ->
   calls_of (snd (fst (bleModelUpdated m res d)))
   = [CSetResourceModel curr]).
Proof.
  intros Hgen Hflag Hreg.
  assert (Hdiff : ~ Forall2 same_but_value curr (values res) ->
                  calls_of (snd (fst (bleModelUpdated m res d)))
                  = [CSetResourceModel curr]
                  /\ snd (bleModelUpdated m res d)
                     = Some (KSetResourceModel curr)).
  { intros Hne.
    assert (Hs : getSchema curr <> getSchema (values res)).
    { intros Heq. apply Hne, same_but_value_delete, getSchema_inj, Heq. }
    rewrite (bleModelUpdated_schema_change _ _ _ _ Hgen Hflag Hreg Hs).
    auto. }
  split; [|split; [exact Hdiff|]].
  - intros Hsame. apply getSchema_value_irrelevant in Hsame.
    rewrite (bleModelUpdated_values _ _ _ _ Hgen Hflag (or_intror Hsame)).
    destruct (value_loop curr (model d) curr res
                (set_modelUpdateInProgress true (set_bleModel m d)))
      as [[d1 evs] next] eqn:E.
    apply value_loop_trace in E. simpl.
    destruct next as [k'|].
    + destruct E as (rule & rest & _ & ->). reflexivity.
    + destruct E as [-> | (rule & ->)]; reflexivity.
  - intros -> Hne. apply Hdiff. intros H. inversion H. now subst.
Qed.

Lemma schema_pushed_iff_descriptors_differ_witness :
  calls_of (snd (fst (bleModelUpdated snapshot_21 []
                                      (registered_device temp_definition))))
  = [CSetResourceModel [temp_descriptor "21"]].
Proof.
  apply (proj2 (proj2 (schema_pushed_iff_descriptors_differ
                         snapshot_21 [] (registered_device temp_definition)
                         [temp_descriptor "21"] eq_refl eq_refl eq_refl))
               eq_refl).
  discriminate.
Defined.
